(** * rolexhound: filesystem event notify watchdog

    A shallow embedding of [rolexhound.c].  The program watches one path
    through inotify, walks every buffer returned by [read] record by
    record, picks a message from the record's mask and hands it to
    libnotify.  Shutdown signals run [sig_shutdown_handler].

    Platform facts the C text relies on and that are fixed here:
    - little-endian, LP64 Linux: [struct inotify_event] is
      [{ int wd; uint32_t mask; uint32_t cookie; uint32_t len; char name[]; }],
      so [sizeof] is 16 and the fields sit at offsets 0, 4, 8 and 12;
    - the [IN_*] masks are the values of [<sys/inotify.h>];
    - pointers into a block are modelled by their offset in the block. *)

From Stdlib Require Import String Ascii ZArith Bool Lia Arith List Sorted.
From coqutil Require Import Byte Word.LittleEndianList.
From Equations Require Import Equations.
From Equations.Prop Require Import Logic.
Import ListNotations.

Local Open Scope string_scope.
Local Open Scope list_scope.
Local Open Scope Z_scope.

(** ** Exit statuses ([#define EXT_*]) *)

Definition EXT_SUCCESS : Z := 0.
Definition EXT_ERR_TOO_FEW_ARGS : Z := 1.
Definition EXT_ERR_INIT_INOTIFY : Z := 2.
Definition EXT_ERR_ADD_WATCH : Z := 3.
Definition EXT_ERR_BASE_PATH_NULL : Z := 4.
Definition EXT_ERR_READ_INOTIFY : Z := 5.
Definition EXT_ERR_INIT_LIBNOTIFY : Z := 6.

Definition ProgramTitle : string := "rolexhound".

(** ** Constants of the system headers *)

Definition IN_ACCESS : Z := 0x1.
Definition IN_MODIFY : Z := 0x2.
Definition IN_CLOSE_WRITE : Z := 0x8.
Definition IN_CREATE : Z := 0x100.
Definition IN_DELETE : Z := 0x200.
Definition IN_MOVE_SELF : Z := 0x800.
(* Two masks the program does not ask for but the kernel still reports. *)
Definition IN_IGNORED : Z := 0x8000.
Definition IN_Q_OVERFLOW : Z := 0x4000.

Definition SIGINT : Z := 2.
Definition SIGABRT : Z := 6.
Definition SIGTERM : Z := 15.

Definition NOTIFY_URGENCY_CRITICAL : Z := 2.

(* [sizeof(struct inotify_event)] and the offsets of the two fields read. *)
Definition sizeof_inotify_event : Z := 16.
Definition offsetof_mask : Z := 4.
Definition offsetof_len : Z := 12.

(* [sizeof(buffer)] for [char buffer[4096]]. *)
Definition sizeof_buffer : nat := 4096.

(* [const uint32_t watch_flags] of [main]. *)
Definition watch_flags : Z :=
  Z.lor IN_CREATE (Z.lor IN_DELETE (Z.lor IN_ACCESS
    (Z.lor IN_CLOSE_WRITE (Z.lor IN_MODIFY IN_MOVE_SELF)))).

(* The line feed that ends every message of the program. *)
Definition LF : string := String (ascii_of_nat 10) EmptyString.

(* A message text followed by its line feed. *)
Definition line (s : string) : string := String.append s LF.

(** ** Choosing the notification message (lines 150-179)

    [notificationMessage] starts as [NULL]; six independent [if]
    statements assign to it in turn. *)

(* The C test [mask & FLAG]: non-zero is true. *)
Definition flag_set (mask flag : Z) : bool := negb (Z.land mask flag =? 0).

Definition select_message (mask : Z) : option string :=
  let notificationMessage := None in
  let notificationMessage :=
    if flag_set mask IN_CREATE
    then Some (line "File created.") else notificationMessage in
  let notificationMessage :=
    if flag_set mask IN_DELETE
    then Some (line "File deleted.") else notificationMessage in
  let notificationMessage :=
    if flag_set mask IN_ACCESS
    then Some (line "File accessed.") else notificationMessage in
  let notificationMessage :=
    if flag_set mask IN_CLOSE_WRITE
    then Some (line "File written and closed.") else notificationMessage in
  let notificationMessage :=
    if flag_set mask IN_MODIFY
    then Some (line "File modified.") else notificationMessage in
  let notificationMessage :=
    if flag_set mask IN_MOVE_SELF
    then Some (line "File moved.") else notificationMessage in
  notificationMessage.

(** The categories of the specification, with the flag each one tests and
    the message the program shows for it.  [Ignored] is the [NULL]
    message. *)

Inductive EventCategory : Type :=
| Created | Deleted | Accessed | WrittenAndClosed | Modified | MovedSelf
| Ignored.

Definition category_flag (c : EventCategory) : Z :=
  match c with
  | Created => IN_CREATE
  | Deleted => IN_DELETE
  | Accessed => IN_ACCESS
  | WrittenAndClosed => IN_CLOSE_WRITE
  | Modified => IN_MODIFY
  | MovedSelf => IN_MOVE_SELF
  | Ignored => 0
  end.

Definition category_message (c : EventCategory) : option string :=
  match c with
  | Created => Some (line "File created.")
  | Deleted => Some (line "File deleted.")
  | Accessed => Some (line "File accessed.")
  | WrittenAndClosed => Some (line "File written and closed.")
  | Modified => Some (line "File modified.")
  | MovedSelf => Some (line "File moved.")
  | Ignored => None
  end.

(* The order in which the specification lists the categories, which is
   also the textual order of the six tests. *)
Definition priority_order : list EventCategory :=
  [Created; Deleted; Accessed; WrittenAndClosed; Modified; MovedSelf].

(* First match over an ordered table of categories. *)
Definition first_match (order : list EventCategory) (mask : Z) : EventCategory :=
  match find (fun c => flag_set mask (category_flag c)) order with
  | Some c => c
  | None => Ignored
  end.

(* The classifier as the specification words it: first match wins over
   [priority_order]. *)
Definition spec_classify (mask : Z) : EventCategory :=
  first_match priority_order mask.

(* Last match wins: the first match in the reverse order. *)
Definition last_match_classify (mask : Z) : EventCategory :=
  first_match (rev priority_order) mask.

(** ** Walking the buffer (lines 147-151)

    [buffer] is the whole 4096-byte array; [read] fills a prefix of it and
    returns that prefix's length.  [buffPointer] is modelled by its
    offset from [buffer].  A field of [watchEvent] is loaded from the four
    bytes at its offset; a load that leaves the array has no defined
    result. *)

Definition load_u32 (buf : list byte) (off : Z) : option Z :=
  if (0 <=? off) && (off + 4 <=? Z.of_nat (length buf))
  then Some (le_combine (firstn 4 (skipn (Z.to_nat off) buf)))
  else None.

Lemma load_u32_nonneg buf off v : load_u32 buf off = Some v -> 0 <= v.
Proof.
  unfold load_u32. destruct (_ && _); [|discriminate].
  intros [= <-]. apply le_combine_bound.
Qed.

(* How the [for] loop over one buffer ends: its condition turns false at
   [cursor], or an iteration that started at [cursor] loads a field
   outside the array. *)
Inductive loop_end : Type :=
| Finished (cursor : Z)
| OutOfBounds (cursor : Z).

(* The increment expression of the loop:
   [buffPointer += sizeof(struct inotify_event) + watchEvent->len]. *)
Definition advance (buffPointer len : Z) : Z :=
  buffPointer + (sizeof_inotify_event + len).
Arguments advance : simpl never.

(** The loop, for any loop body.  The body gets the offset of
    [watchEvent] and its [mask]; [watchEvent->len] is read afterwards, by
    the increment expression, which [continue] reaches as well. *)
Equations? event_loop {S : Type} (body : Z -> Z -> S -> S)
    (buf : list byte) (readLength buffPointer : Z) (s : S)
    : S * loop_end by wf (Z.to_nat (readLength - buffPointer)) lt :=
  event_loop body buf readLength buffPointer s
    with Z_lt_dec buffPointer readLength => {
    | right _ := (s, Finished buffPointer);
    | left _ with load_u32 buf (buffPointer + offsetof_mask) => {
      | None := (s, OutOfBounds buffPointer);
      | Some mask
          with inspect (load_u32 buf (buffPointer + offsetof_len)) => {
        | exist _ None _ := (body buffPointer mask s, OutOfBounds buffPointer);
        | exist _ (Some len) _ :=
            event_loop body buf readLength (advance buffPointer len)
              (body buffPointer mask s) } } }.
Proof.
  match goal with H : _ = Some len |- _ => apply load_u32_nonneg in H end.
  unfold advance, sizeof_inotify_event. lia.
Qed.

(** ** C strings and [strtok] (lines 115-124)

    A block of [char] is a list of characters; a [char *] into it is an
    offset, and [NULL] is [None].  Every block used here ends with a NUL;
    reading at or past the end of the list gives NUL as well, which keeps
    the scanning functions total. *)

Definition NUL : ascii := Ascii.zero.

Definition is_nul (c : ascii) : bool := Ascii.eqb c NUL.

Definition is_delim (delim : list ascii) (c : ascii) : bool :=
  existsb (Ascii.eqb c) delim.

Definition char_at (mem : list ascii) (p : nat) : ascii := nth p mem NUL.

(* [strspn(s, delim)]: length of the leading run of delimiters. *)
Fixpoint strspn (s delim : list ascii) : nat :=
  match s with
  | [] => 0
  | c :: s' =>
      if is_nul c then 0
      else if is_delim delim c then S (strspn s' delim) else 0
  end%nat.

(* [strcspn(s, delim)]: length of the leading run free of delimiters. *)
Fixpoint strcspn (s delim : list ascii) : nat :=
  match s with
  | [] => 0
  | c :: s' =>
      if is_nul c then 0
      else if is_delim delim c then 0 else S (strcspn s' delim)
  end%nat.

(* The string a [char *] denotes: the characters up to the first NUL. *)
Fixpoint c_chars (s : list ascii) : list ascii :=
  match s with
  | [] => []
  | c :: s' => if is_nul c then [] else c :: c_chars s'
  end.

Definition c_string (mem : list ascii) (p : nat) : string :=
  string_of_list_ascii (c_chars (skipn p mem)).

(* [malloc(strlen(s) + 1)] followed by [strcpy]: the characters of [s] up
   to its first NUL, and the terminator.  The allocation is taken to
   succeed. *)
Definition strcpy_new (s : string) : list ascii :=
  c_chars (list_ascii_of_string s) ++ [NUL].

(* The block [strtok] works on and its saved position between calls. *)
Record strtok_state : Type := {
  mem : list ascii;
  olds : nat
}.

(* Store one character; a store outside the block is not performed. *)
Fixpoint store (mem : list ascii) (p : nat) (c : ascii) : list ascii :=
  match mem, p with
  | [], _ => []
  | _ :: m, O => c :: m
  | x :: m, S p' => x :: store m p' c
  end.

(** [strtok(s, delim)]: skip delimiters from [s] (or from the saved
    position when [s] is [NULL]); at the end of the string return [NULL];
    otherwise the token runs up to the next delimiter, which is
    overwritten by NUL, or up to the end of the string. *)
Definition strtok (s : option nat) (delim : list ascii) (st : strtok_state)
  : option nat * strtok_state :=
  let start := match s with Some p => p | None => olds st end in
  let tok := (start + strspn (skipn start (mem st)) delim)%nat in
  if is_nul (char_at (mem st) tok)
  then (None, {| mem := mem st; olds := tok |})
  else
    let e := (tok + strcspn (skipn tok (mem st)) delim)%nat in
    if is_nul (char_at (mem st) e)
    then (Some tok, {| mem := mem st; olds := e |})
    else (Some tok, {| mem := store (mem st) e NUL; olds := S e |}).

(* The delimiter string ["/"]. *)
Definition slash : ascii := "/"%char.
Definition path_delim : list ascii := [slash].

(** Facts about one [strtok] call that bound the tokenisation loop. *)

Lemma nth_skipn_char_at (m : list ascii) (p k : nat) :
  nth k (skipn p m) NUL = char_at m (p + k).
Proof.
  unfold char_at. revert m. induction p as [|p IH]; intros m; simpl.
  - reflexivity.
  - destruct m as [|x m]; simpl.
    + destruct k; reflexivity.
    + apply IH.
Qed.

Lemma strspn_stops (s delim : list ascii) :
  is_nul (nth (strspn s delim) s NUL) = true \/
  is_delim delim (nth (strspn s delim) s NUL) = false.
Proof.
  induction s as [|c s IH]; simpl.
  - left. reflexivity.
  - destruct (is_nul c) eqn:Hn; simpl.
    + left. exact Hn.
    + destruct (is_delim delim c) eqn:Hd; simpl.
      * exact IH.
      * right. exact Hd.
Qed.

Lemma strcspn_positive (s delim : list ascii) :
  is_nul (nth 0 s NUL) = false ->
  is_delim delim (nth 0 s NUL) = false ->
  (0 < strcspn s delim)%nat.
Proof.
  destruct s as [|c s]; simpl.
  - discriminate.
  - intros -> ->. lia.
Qed.

Lemma char_at_not_nul_inside (m : list ascii) (p : nat) :
  is_nul (char_at m p) = false -> (p < List.length m)%nat.
Proof.
  unfold char_at. intros H.
  destruct (Nat.lt_ge_cases p (List.length m)) as [Hlt|Hge]; [exact Hlt|].
  rewrite nth_overflow in H by exact Hge. discriminate.
Qed.

Lemma length_store (m : list ascii) (p : nat) (c : ascii) :
  List.length (store m p c) = List.length m.
Proof.
  revert p. induction m as [|x m IH]; intros [|p]; simpl; auto.
Qed.

Lemma strtok_progress (delim : list ascii) (st st' : strtok_state) (t : nat) :
  strtok None delim st = (Some t, st') ->
  (olds st <= t /\ t < olds st' /\ t < List.length (mem st) /\
   List.length (mem st') = List.length (mem st))%nat.
Proof.
  unfold strtok.
  set (tok := (olds st + strspn (skipn (olds st) (mem st)) delim)%nat).
  destruct (is_nul (char_at (mem st) tok)) eqn:Hnul; [discriminate|].
  assert (Hpos : (0 < strcspn (skipn tok (mem st)) delim)%nat).
  { apply strcspn_positive.
    - rewrite nth_skipn_char_at, Nat.add_0_r. exact Hnul.
    - destruct (strspn_stops (skipn (olds st) (mem st)) delim) as [H|H];
        rewrite nth_skipn_char_at in H; fold tok in H.
      + congruence.
      + rewrite nth_skipn_char_at, Nat.add_0_r. exact H. }
  apply char_at_not_nul_inside in Hnul.
  destruct (is_nul (char_at (mem st) _)); intros [= <- <-]; simpl;
    rewrite ?length_store; subst tok; lia.
Qed.

(* What is left of the loop: nothing once [token] is [NULL], otherwise at
   most the characters after the saved position. *)
Definition tokens_left (token : option nat) (st : strtok_state) : nat :=
  match token with
  | None => 0
  | Some _ => S (List.length (mem st) - olds st)
  end.

(** The loop [while (token != NULL) { basePath = token; token = strtok(NULL, "/"); }]. *)
Equations? last_token_loop (token basePath : option nat) (st : strtok_state)
    : option nat * strtok_state by wf (tokens_left token st) lt :=
  last_token_loop None basePath st := (basePath, st);
  last_token_loop (Some t) basePath st
    with inspect (strtok None path_delim st) => {
    | exist _ (token', st') _ := last_token_loop token' (Some t) st' }.
Proof.
  destruct token' as [t'|]; simpl; [|lia].
  match goal with H : strtok _ _ _ = _ |- _ => apply strtok_progress in H end.
  lia.
Qed.

(** Lines 117-124: copy [argv[1]], tokenise the copy, keep the last
    token.  The result is the final [basePath] and the block it points
    into. *)
Definition tokenize (argv1 : string) : option nat * strtok_state :=
  let block := strcpy_new argv1 in
  let basePath := Some 0%nat in
  let '(token, st) :=
    strtok basePath path_delim {| mem := block; olds := 0 |} in
  last_token_loop token basePath st.

(* The string [basePath] denotes when the daemon loop starts. *)
Definition display_name (argv1 : string) : option string :=
  let '(basePath, st) := tokenize argv1 in
  option_map (c_string (mem st)) basePath.

(** ** The process and its environment

    The calls the program makes, in program order, form its trace.  What
    the environment answers is fixed beforehand by a [World]. *)

Inductive io : Type :=
| Printf (text : string)                        (* [printf] *)
| Eprintf (text : string)                       (* [fprintf(stderr, ...)] *)
| NotifyInit (app : string)
| InotifyInit
| InotifyAddWatch (fd : Z) (path : string) (mask : Z)
| SignalInstall (signum : Z)
| ReadQueue (fd : Z)
| NotificationNew (summary body icon : string)
| NotificationSetUrgency (urgency : Z)
| NotificationShow (shown : bool)               (* with the value it returned *)
| InotifyRmWatch (fd wd : Z) (status : Z)       (* with the value it returned *)
| CloseFd (fd : Z)
| NotifyUninit.

(* What one notification meets in libnotify: no handle, a handle that
   fails to show, or a shown notification. *)
Inductive sink_result : Type := HandleNull | ShowFailed | Shown.

(* What one [read] of the queue delivers: [-1], or some bytes. *)
Inductive read_result : Type :=
| ReadError
| ReadData (data : list byte).

Record World : Type := {
  notify_init_ok : bool;            (* result of [notify_init] *)
  inotify_init_fd : Z;              (* result of [inotify_init] *)
  add_watch_wd : Z;                 (* result of [inotify_add_watch] *)
  stack_bytes : list byte;          (* what [buffer] holds before the first read *)
  reads : list read_result;         (* the successive reads; none left: blocked *)
  sink : nat -> sink_result         (* the fate of the n-th notification *)
}.

(* How a run ends: [exit(status)], blocked in [read] for ever, or a load
   outside [buffer], after which the C text promises nothing. *)
Inductive outcome : Type :=
| Exited (status : Z)
| Blocked
| Undefined.

(* The state the loop body works on: the trace so far and the number of
   notifications requested so far. *)
Record run_state : Type := {
  out : list io;
  requested : nat
}.

Definition emit (e : io) (st : run_state) : run_state :=
  {| out := out st ++ [e]; requested := requested st |}.

(** The body of the [for] loop, lines 150-187, for the record at
    [watchEvent] with mask [mask]. *)
Definition process_event (snk : nat -> sink_result) (basePath : string)
    (watchEvent mask : Z) (st : run_state) : run_state :=
  match select_message mask with
  | None => st                                              (* [continue] *)
  | Some notificationMessage =>
      let st1 :=
        {| out := out st ++
             [NotificationNew basePath notificationMessage "dialog-information"];
           requested := S (requested st) |} in
      match snk (requested st) with
      | HandleNull =>
          emit (Eprintf (line "Got a null notify handle!")) st1   (* [continue] *)
      | ShowFailed =>
          emit (NotificationShow false)
            (emit (NotificationSetUrgency NOTIFY_URGENCY_CRITICAL) st1)
      | Shown =>
          emit (NotificationShow true)
            (emit (NotificationSetUrgency NOTIFY_URGENCY_CRITICAL) st1)
      end
  end.

(* [buffer] as the first read finds it: 4096 bytes of whatever the stack
   held. *)
Definition initial_buffer (w : World) : list byte :=
  firstn sizeof_buffer (stack_bytes w ++ repeat Byte.x00 sizeof_buffer).

(* [read(fd, buffer, sizeof(buffer))] delivering [data]: at most
   [sizeof(buffer)] bytes overwrite the front of [buffer]. *)
Definition read_into (buffer data : list byte) : list byte * Z :=
  let got := firstn (Nat.min sizeof_buffer (List.length buffer)) data in
  (got ++ skipn (List.length got) buffer, Z.of_nat (List.length got)).

(** The daemon loop, lines 132-189.  It runs as long as the world has
    reads to deliver. *)
Fixpoint daemon_loop (snk : nat -> sink_result) (IeventQueue : Z)
    (basePath : string) (buffer : list byte) (rs : list read_result)
    (st : run_state) : run_state * outcome :=
  let st := emit (Printf (line "Waiting for ievent...")) st in
  let st := emit (ReadQueue IeventQueue) st in
  match rs with
  | [] => (st, Blocked)
  | ReadError :: _ =>
      (emit (Eprintf (line "Error reading from inotify event!")) st,
       Exited EXT_ERR_READ_INOTIFY)
  | ReadData data :: rs' =>
      let '(buffer, readLength) := read_into buffer data in
      match event_loop (process_event snk basePath) buffer readLength 0 st with
      | (st, Finished _) => daemon_loop snk IeventQueue basePath buffer rs' st
      | (st, OutOfBounds _) => (st, Undefined)
      end
  end.

(** [main], lines 62-190.  [argv] holds [argc] strings. *)
Definition main (argv : list string) (w : World) : list io * outcome :=
  let argc := Z.of_nat (List.length argv) in
  if argc <? 2 then
    ([Eprintf (line ("USAGE: " ++ ProgramTitle ++ " PATH"))],
     Exited EXT_ERR_TOO_FEW_ARGS)
  else
  let argv1 := nth 1 argv EmptyString in
  let t := [NotifyInit ProgramTitle] in
  if negb (notify_init_ok w) then
    (t ++ [Eprintf (line "Error initialising with libnotify!")],
     Exited EXT_ERR_INIT_LIBNOTIFY)
  else
  let IeventQueue := inotify_init_fd w in
  let t := t ++ [InotifyInit] in
  if IeventQueue =? -1 then
    (t ++ [Eprintf (line "Error initialising event queue!")],
     Exited EXT_ERR_INIT_INOTIFY)
  else
  let IeventDescriptor := add_watch_wd w in
  let t := t ++ [InotifyAddWatch IeventQueue argv1 watch_flags] in
  if IeventDescriptor =? -1 then
    (t ++ [Eprintf (line "Error adding file to inotify watch!")],
     Exited EXT_ERR_ADD_WATCH)
  else
  let t := t ++ [SignalInstall SIGABRT; SignalInstall SIGINT;
                 SignalInstall SIGTERM] in
  match display_name argv1 with
  | None =>
      (t ++ [Eprintf (line "Error getting base file path!")],
       Exited EXT_ERR_BASE_PATH_NULL)
  | Some basePath =>
      let '(st, o) :=
        daemon_loop (sink w) IeventQueue basePath (initial_buffer w) (reads w)
          {| out := t; requested := 0 |} in
      (out st, o)
  end.

(** ** Shutdown signals (lines 44-60 and 111-113)

    [signal] installs [sig_shutdown_handler] for [SIGABRT], [SIGINT] and
    [SIGTERM].  While the handler of one signal runs, that signal is
    blocked and the other two are not, so a handler can be interrupted by
    a second activation; the interrupted one resumes only if the inner one
    returns, which this handler never does.  The handler is a sequence of
    calls, and a signal can arrive between any two of them.

    Around the handler the machine has what else happens to the process
    once the daemon loop runs: the calls of [main]'s loop, the read that
    fails and the two statements by which [main] then leaves, a signal
    without handler taking its default action, and the kernel dropping the
    watch by itself (the watched file is deleted, its file system
    unmounted).  The loop's calls come in any order here, which allows
    every order the loop has.

    What the machine takes for granted: the process has the one thread of
    [main]; it starts with no signal blocked and with the default action
    for every signal but the three; every call is one step, [exit]
    included, so that a signal arrives between two calls and never inside
    one; and [main]'s walk stays inside [buffer]. *)

(* Signals whose default action is not to terminate the process: ignored
   ones, and those of job control. *)
Definition SIGCHLD : Z := 17.
Definition SIGCONT : Z := 18.
Definition SIGSTOP : Z := 19.
Definition SIGTSTP : Z := 20.
Definition SIGTTIN : Z := 21.
Definition SIGTTOU : Z := 22.
Definition SIGURG : Z := 23.
Definition SIGWINCH : Z := 28.


(* The kernel's and libnotify's side of what the handler releases. *)
Record resources : Type := {
  queue_open : bool;        (* the inotify instance behind [IeventQueue] *)
  watch_live : bool;        (* the watch behind [IeventDescriptor] *)
  libnotify_up : bool
}.

(* The statement an activation of the handler executes next. *)
Inductive handler_pc : Type :=
| AtPrintf | AtRmWatch | AtCheck | AtClose | AtUninit | AtExit.

Record frame : Type := {
  signum : Z;
  pc : handler_pc;
  closeStatus : Z
}.

(* Where [main] is: in its loop (lines 132-137 and 143-189), or, its
   read having returned -1, at the [fprintf] of line 139 or at the [exit]
   of line 140. *)
Inductive main_pc : Type := InLoop | AtReport | AtLeave.

Record process : Type := {
  IeventQueue : Z;                (* the two globals, set by [main] *)
  IeventDescriptor : Z;
  res : resources;
  at_main : main_pc;
  frames : list frame;            (* handler activations, innermost first *)
  exit_status : option Z;         (* [Some] once [exit] was called *)
  killed_by : option Z;           (* [Some] once a signal terminated it *)
  log : list io                   (* the calls made since the loop started *)
}.

(* The process as [main] leaves it when the daemon loop starts. *)
Definition active (fd wd : Z) : process :=
  {| IeventQueue := fd; IeventDescriptor := wd;
     res := {| queue_open := true; watch_live := true; libnotify_up := true |};
     at_main := InLoop;
     frames := []; exit_status := None; killed_by := None; log := [] |}.

(* [inotify_rm_watch]: 0 and the watch is gone, or -1 when there is no
   such watch (any more). *)
Definition inotify_rm_watch (r : resources) : Z * resources :=
  if queue_open r && watch_live r
  then (0, {| queue_open := true; watch_live := false;
              libnotify_up := libnotify_up r |})
  else (-1, r).

(* [close] of the queue: the instance and its watches are freed; on a
   closed descriptor nothing happens. *)
Definition close_queue (r : resources) : resources :=
  {| queue_open := false; watch_live := false; libnotify_up := libnotify_up r |}.

Definition notify_uninit (r : resources) : resources :=
  {| queue_open := queue_open r; watch_live := watch_live r;
     libnotify_up := false |}.

(* The kernel removes the watch by itself. *)
Definition drop_watch (r : resources) : resources :=
  {| queue_open := queue_open r; watch_live := false;
     libnotify_up := libnotify_up r |}.

(* The text of the handler's [printf]. *)
Definition exit_banner : string :=
  String.append (line "Exit signal received!")
                (line "closing inotify descriptors...").

(** [sig_shutdown_handler], one statement at a time: the statement at
    [pc f] is executed by the innermost activation [f], the outer ones
    being [outer]. *)
Definition sig_shutdown_handler (f : frame) (outer : list frame) (p : process) : process :=
  let resume pc' cs l r :=
    {| IeventQueue := IeventQueue p; IeventDescriptor := IeventDescriptor p;
       res := r; at_main := at_main p;
       frames := {| signum := signum f; pc := pc'; closeStatus := cs |} :: outer;
       exit_status := None; killed_by := None; log := log p ++ l |} in
  match pc f with
  | AtPrintf =>
      resume AtRmWatch (closeStatus f)
        [Printf exit_banner] (res p)
  | AtRmWatch =>
      let '(status, r) := inotify_rm_watch (res p) in
      resume AtCheck status
        [InotifyRmWatch (IeventQueue p) (IeventDescriptor p) status] r
  | AtCheck =>
      resume AtClose (closeStatus f)
        (if closeStatus f =? -1
         then [Eprintf (line "Error removing file from inotify watch!")]
         else []) (res p)
  | AtClose =>
      resume AtUninit (closeStatus f) [CloseFd (IeventQueue p)]
        (close_queue (res p))
  | AtUninit =>
      resume AtExit (closeStatus f) [NotifyUninit] (notify_uninit (res p))
  | AtExit =>
      {| IeventQueue := IeventQueue p; IeventDescriptor := IeventDescriptor p;
         res := res p; at_main := at_main p; frames := f :: outer;
         exit_status := Some EXT_SUCCESS; killed_by := None; log := log p |}
  end.

(** A statement of [main]: inside the loop one that makes no call; after
    the read that failed, lines 139 and 140. *)
Definition main_statement (p : process) : process :=
  match at_main p with
  | InLoop => p
  | AtReport =>
      {| IeventQueue := IeventQueue p; IeventDescriptor := IeventDescriptor p;
         res := res p; at_main := AtLeave; frames := frames p;
         exit_status := None; killed_by := None;
         log := log p ++ [Eprintf (line "Error reading from inotify event!")] |}
  | AtLeave =>
      {| IeventQueue := IeventQueue p; IeventDescriptor := IeventDescriptor p;
         res := res p; at_main := AtLeave; frames := frames p;
         exit_status := Some EXT_ERR_READ_INOTIFY; killed_by := None;
         log := log p |}
  end.

(* The calls of [main]'s loop, lines 135-187. *)
Definition main_loop_call (fd : Z) (e : io) : bool :=
  match e with
  | Printf text => String.eqb text (line "Waiting for ievent...")
  | ReadQueue fd' => fd' =? fd
  | NotificationNew _ _ icon => String.eqb icon "dialog-information"
  | Eprintf text => String.eqb text (line "Got a null notify handle!")
  | NotificationSetUrgency urgency => urgency =? NOTIFY_URGENCY_CRITICAL
  | NotificationShow _ => true
  | _ => false
  end.

(* What can happen next: a signal arrives, the process executes its next
   statement, [main]'s loop makes one of its calls, the kernel drops the
   watch, or the [read] of line 136 returns -1. *)
Inductive action : Type :=
| Deliver (sig : Z)
| Step
| LoopCall (e : io)
| WatchDropped
| ReadFails.

Definition installed (sig : Z) : bool :=
  (sig =? SIGABRT) || (sig =? SIGINT) || (sig =? SIGTERM).

(* Whether the default action of signal number [sig] terminates the
   process.  The signals of job control only delay the statements: a
   stopped process executes nothing, and what is sent to it meanwhile
   arrives when it continues. *)
Definition default_terminates (sig : Z) : bool :=
  (1 <=? sig) && (sig <=? 64) &&
  negb (existsb (Z.eqb sig)
          [SIGCHLD; SIGCONT; SIGSTOP; SIGTSTP; SIGTTIN; SIGTTOU; SIGURG;
           SIGWINCH]).

Definition blocked (sig : Z) (fs : list frame) : bool :=
  existsb (fun f => signum f =? sig) fs.

(* The process has exited or was killed. *)
Definition gone (p : process) : bool :=
  match exit_status p, killed_by p with
  | None, None => false
  | _, _ => true
  end.

Definition perform (p : process) (a : action) : process :=
  if gone p then p
  else
    match a with
    | Deliver sig =>
        if installed sig then
          if blocked sig (frames p) then p        (* stays pending *)
          else {| IeventQueue := IeventQueue p;
                  IeventDescriptor := IeventDescriptor p;
                  res := res p; at_main := at_main p;
                  frames := {| signum := sig; pc := AtPrintf; closeStatus := 0 |}
                            :: frames p;
                  exit_status := None; killed_by := None; log := log p |}
        else if default_terminates sig then
          {| IeventQueue := IeventQueue p;
             IeventDescriptor := IeventDescriptor p;
             res := res p; at_main := at_main p; frames := frames p;
             exit_status := None; killed_by := Some sig; log := log p |}
        else p
    | Step =>
        match frames p with
        | [] => main_statement p
        | f :: outer => sig_shutdown_handler f outer p
        end
    | LoopCall e =>
        match frames p, at_main p with
        | [], InLoop =>
            if main_loop_call (IeventQueue p) e then
              {| IeventQueue := IeventQueue p;
                 IeventDescriptor := IeventDescriptor p;
                 res := res p; at_main := InLoop; frames := [];
                 exit_status := None; killed_by := None;
                 log := log p ++ [e] |}
            else p                      (* not a call of the loop *)
        | _, _ => p                     (* [main] is not in its loop *)
        end
    | WatchDropped =>
        {| IeventQueue := IeventQueue p;
           IeventDescriptor := IeventDescriptor p;
           res := drop_watch (res p); at_main := at_main p;
           frames := frames p;
           exit_status := None; killed_by := None; log := log p |}
    | ReadFails =>
        match frames p, at_main p with
        | [], InLoop =>                 (* line 138 is taken *)
            {| IeventQueue := IeventQueue p;
               IeventDescriptor := IeventDescriptor p;
               res := res p; at_main := AtReport; frames := [];
               exit_status := None; killed_by := None; log := log p |}
        | _, _ => p                     (* [main] is not at its read *)
        end
    end.

Definition run (schedule : list action) (p : process) : process :=
  fold_left perform schedule p.

(* The removals of the watch in a trace, and those that succeeded. *)
Definition is_rm_watch (e : io) : bool :=
  match e with InotifyRmWatch _ _ _ => true | _ => false end.

Definition is_rm_watch_ok (e : io) : bool :=
  match e with InotifyRmWatch _ _ status => status =? 0 | _ => false end.

Definition is_close (e : io) : bool :=
  match e with CloseFd _ => true | _ => false end.

(* One uninterrupted run of the handler: its six statements. *)
Definition handler_run : list action := repeat Step 6.

(** * Vocabulary of the statements

    Definitions the properties below are stated with: the records the
    walk yields, the kernel's encoding of events, sample inputs, and
    predicates over traces and over the signal machine. *)

(* The loop body that only notes where [watchEvent] pointed and the mask
   found there: the records the loop yields. *)
Definition record_visit (watchEvent mask : Z) (seen : list (Z * Z))
  : list (Z * Z) :=
  seen ++ [(watchEvent, mask)].

(* One event as the kernel writes it to the queue: the four header
   fields of [struct inotify_event], little endian, then [len] bytes of
   name (padding included). *)
Record inotify_event : Type := {
  wd : Z;
  mask : Z;
  cookie : Z;
  name : list byte          (* [len] is its length *)
}.

Definition len (e : inotify_event) : Z := Z.of_nat (List.length (name e)).

Definition encode_event (e : inotify_event) : list byte :=
  le_split 4 (wd e) ++ le_split 4 (mask e) ++ le_split 4 (cookie e) ++
  le_split 4 (len e) ++ name e.

Definition encode_events (evs : list inotify_event) : list byte :=
  concat (map encode_event evs).

(* [mask] and [len] are [uint32_t]. *)
Definition well_formed (e : inotify_event) : Prop :=
  0 <= mask e < 2 ^ 32 /\ len e < 2 ^ 32.

(* Where the records of [evs] start when the first one starts at [p], with
   their masks. *)
Fixpoint record_starts (p : Z) (evs : list inotify_event) : list (Z * Z) :=
  match evs with
  | [] => []
  | e :: evs' =>
      (p, mask e) :: record_starts (p + (sizeof_inotify_event + len e)) evs'
  end.

(* The bytes the walk consumes for [evs]: header and name of each. *)
Definition consumed (evs : list inotify_event) : Z :=
  fold_right (fun e acc => sizeof_inotify_event + len e + acc) 0 evs.

(* A read of two whole records: a creation without name, a deletion with
   16 bytes of name. *)
Definition two_events : list inotify_event :=
  [ {| wd := 1; mask := IN_CREATE; cookie := 0; name := [] |};
    {| wd := 1; mask := IN_DELETE; cookie := 0;
       name := repeat Byte.x00 16 |} ].

(* Two reads that end inside a record, each into the zeroed array: the
   first delivers half a header, the second one header that declares 32
   bytes of name and none of them. *)
Definition half_header : list byte :=
  le_split 4 1 ++ le_split 4 IN_CREATE.

Definition header_without_name : list byte :=
  le_split 4 1 ++ le_split 4 IN_DELETE ++ le_split 4 0 ++ le_split 4 32.

Definition zeroed_buffer : list byte := repeat Byte.x00 sizeof_buffer.

(* A character of a path segment: neither the terminator nor ['/']. *)
Definition plain (c : ascii) : Prop :=
  is_nul c = false /\ is_delim path_delim c = false.

(* The path up to its last segment: segments, each followed by ['/']. *)
Definition segments (toks : list (list ascii)) : list ascii :=
  concat (map (fun t => t ++ [slash]) toks).

(* A [strtok(NULL, "/")] call and the loop on its result. *)
Definition tokenize_from (basePath : option nat) (st : strtok_state)
  : option nat * strtok_state :=
  last_token_loop (fst (strtok None path_delim st)) basePath
    (snd (strtok None path_delim st)).

(* [s] holds no character [c]. *)
Definition free_of (c : ascii) (s : string) : bool :=
  forallb (fun x => negb (Ascii.eqb x c)) (list_ascii_of_string s).

(* [s] consists of ['/'] only. *)
Definition only_slashes (s : string) : bool :=
  forallb (Ascii.eqb slash) (list_ascii_of_string s).

(* The calls that release something: the teardown of the handler. *)
Definition is_release (e : io) : bool :=
  match e with
  | InotifyRmWatch _ _ _ | CloseFd _ | NotifyUninit => true
  | _ => false
  end.

(* The calls that acquire something. *)
Definition is_acquire (e : io) : bool :=
  match e with
  | NotifyInit _ | InotifyInit | InotifyAddWatch _ _ _ => true
  | _ => false
  end.

Definition is_notification_new (e : io) : bool :=
  match e with NotificationNew _ _ _ => true | _ => false end.

Definition is_eprintf (e : io) : bool :=
  match e with Eprintf _ => true | _ => false end.

(* What the daemon loop may add to the trace when the title is
   [basePath]. *)
Definition loop_call (basePath : string) (e : io) : Prop :=
  match e with
  | Printf _ | Eprintf _ | ReadQueue _
  | NotificationSetUrgency _ | NotificationShow _ => True
  | NotificationNew summary _ _ => summary = basePath
  | _ => False
  end.

(* The body applied to the records of one buffer, in order. *)
Definition process_events (snk : nat -> sink_result) (basePath : string)
    (visits : list (Z * Z)) (st : run_state) : run_state :=
  fold_left (fun s v => process_event snk basePath (fst v) (snd v) s) visits st.

(* The calls of a start-up in which every acquisition succeeds. *)
Definition startup_trace (fd : Z) (argv1 : string) : list io :=
  [NotifyInit ProgramTitle; InotifyInit; InotifyAddWatch fd argv1 watch_flags;
   SignalInstall SIGABRT; SignalInstall SIGINT; SignalInstall SIGTERM].

(* The exit statuses, one per fatal condition. *)
Definition exit_statuses : list Z :=
  [EXT_SUCCESS; EXT_ERR_TOO_FEW_ARGS; EXT_ERR_INIT_INOTIFY; EXT_ERR_ADD_WATCH;
   EXT_ERR_BASE_PATH_NULL; EXT_ERR_READ_INOTIFY; EXT_ERR_INIT_LIBNOTIFY].

(* A world in which the start-up succeeds and no event ever arrives. *)
Definition quiet_world : World :=
  {| notify_init_ok := true; inotify_init_fd := 3; add_watch_wd := 1;
     stack_bytes := []; reads := []; sink := fun _ => Shown |}.

(* The two calls that open every turn of the daemon loop. *)
Definition waiting (fd : Z) (st : run_state) : run_state :=
  emit (ReadQueue fd) (emit (Printf (line "Waiting for ievent...")) st).

(* One turn of the daemon loop on a read of the whole records [evs]. *)
Definition serve (snk : nat -> sink_result) (basePath : string) (fd : Z)
    (st : run_state) (evs : list inotify_event) : run_state :=
  process_events snk basePath (record_starts 0 evs) (waiting fd st).

(* Records a single read can deliver. *)
Definition fits (evs : list inotify_event) : Prop :=
  Forall well_formed evs /\
  (List.length (encode_events evs) <= sizeof_buffer)%nat.

Definition whole_reads (batches : list (list inotify_event)) : list read_result :=
  map (fun evs => ReadData (encode_events evs)) batches.

(* A world whose first read fails. *)
Definition failing_world : World :=
  {| notify_init_ok := true; inotify_init_fd := 3; add_watch_wd := 1;
     stack_bytes := []; reads := [ReadError]; sink := fun _ => Shown |}.

(* The notifications the body requests for the records of one buffer. *)
Definition requests_for (basePath : string) (visits : list (Z * Z)) : list io :=
  flat_map (fun v =>
              match select_message (snd v) with
              | Some notificationMessage =>
                  [NotificationNew basePath notificationMessage
                     "dialog-information"]
              | None => []
              end) visits.

(* The same world with another sink. *)
Definition with_sink (w : World) (snk : nat -> sink_result) : World :=
  {| notify_init_ok := notify_init_ok w;
     inotify_init_fd := inotify_init_fd w;
     add_watch_wd := add_watch_wd w;
     stack_bytes := stack_bytes w;
     reads := reads w;
     sink := snk |}.

(* A world that delivers one creation and whose sink fails to show it. *)
Definition one_created : list inotify_event :=
  [ {| wd := 1; mask := IN_CREATE; cookie := 0; name := [] |} ].

Definition unshown_world : World :=
  {| notify_init_ok := true; inotify_init_fd := 3; add_watch_wd := 1;
     stack_bytes := []; reads := whole_reads [one_created];
     sink := fun _ => ShowFailed |}.

(* The successful removals of the watch in a trace. *)
Definition removals (l : list io) : nat :=
  List.length (filter is_rm_watch_ok l).

(* Whether a removal of the watch can still succeed, as a count. *)
Definition watch_removable (r : resources) : nat :=
  if queue_open r && watch_live r then 1%nat else 0%nat.

(* What an activation that has reached a given statement has already
   released. *)
Definition frame_ok (r : resources) (f : frame) : Prop :=
  match pc f with
  | AtUninit => queue_open r = false /\ watch_live r = false
  | AtExit =>
      queue_open r = false /\ watch_live r = false /\ libnotify_up r = false
  | _ => True
  end.

(* Resources are only ever released. *)
Definition released_more (r' r : resources) : Prop :=
  (queue_open r = false -> queue_open r' = false) /\
  (watch_live r = false -> watch_live r' = false) /\
  (libnotify_up r = false -> libnotify_up r' = false).

(* Every activation has released what its position says; without any
   activation nothing was released; and [exit] is only ever called by an
   activation at its last statement, with success, or by [main] after its
   read error was reported, while no activation exists. *)
Definition exit_ok (p : process) : Prop :=
  Forall (frame_ok (res p)) (frames p) /\
  (frames p = [] -> filter is_release (log p) = []) /\
  (at_main p = AtLeave ->
   In (Eprintf (line "Error reading from inotify event!")) (log p)) /\
  (forall status, exit_status p = Some status ->
     (status = EXT_SUCCESS /\
      exists f outer, frames p = f :: outer /\ pc f = AtExit) \/
     (status = EXT_ERR_READ_INOTIFY /\ frames p = [] /\ at_main p = AtLeave)).

(* What happens while no signal arrives and no read fails: statements,
   calls of the loop, and the kernel dropping the watch. *)
Definition quiet (a : action) : Prop :=
  match a with
  | Step | LoopCall _ | WatchDropped => True
  | Deliver _ | ReadFails => False
  end.

(* The calls [main]'s loop makes in a schedule. *)
Definition loop_trace (fd : Z) (schedule : list action) : list io :=
  flat_map (fun a => match a with
                     | LoopCall e => if main_loop_call fd e then [e] else []
                     | _ => []
                     end) schedule.

Definition is_drop (a : action) : bool :=
  match a with WatchDropped => true | _ => false end.

(* A second, different signal arrives when the first activation has just
   removed the watch (and, in the second schedule, closed the queue as
   well); the second activation then runs to its [exit]. *)
Definition interrupted_after_removal : list action :=
  [Deliver SIGINT; Step; Step; Deliver SIGTERM] ++ handler_run.

Definition interrupted_after_close : list action :=
  [Deliver SIGINT; Step; Step; Step; Step; Deliver SIGTERM] ++ handler_run.

(* A flag the kernel adds to the mask of an event on a directory; the
   program never tests it. *)
Definition IN_ISDIR : Z := 0x40000000.

(* Every outcome but the load outside [buffer]. *)
Definition is_defined (o : outcome) : bool :=
  match o with Undefined => false | _ => true end.

(* A read that leaves the last 15 bytes of [buffer] untouched, or fails. *)
Definition short_read (r : read_result) : Prop :=
  match r with
  | ReadError => True
  | ReadData data => (List.length data + 15 <= sizeof_buffer)%nat
  end.

(* A world whose only read delivers the half header. *)
Definition half_header_world : World :=
  {| notify_init_ok := true; inotify_init_fd := 3; add_watch_wd := 1;
     stack_bytes := []; reads := [ReadData half_header];
     sink := fun _ => Shown |}.

Definition is_signal_install (e : io) : bool :=
  match e with SignalInstall _ => true | _ => false end.

(* A world that delivers the two whole records in one read and nothing
   after it. *)
Definition two_events_world : World :=
  {| notify_init_ok := true; inotify_init_fd := 3; add_watch_wd := 1;
     stack_bytes := []; reads := whole_reads [two_events];
     sink := fun _ => Shown |}.

(* A world in which the watch cannot be added. *)
Definition unwatchable_world : World :=
  {| notify_init_ok := true; inotify_init_fd := 3; add_watch_wd := -1;
     stack_bytes := []; reads := []; sink := fun _ => Shown |}.

(* A schedule in which no signal but [sig] ever arrives. *)
Definition only_signal (sig : Z) (a : action) : Prop :=
  match a with Deliver s => s = sig | _ => True end.

(* A schedule in which no signal arrives that would terminate the process
   by its default action. *)
Definition survivable (a : action) : Prop :=
  match a with
  | Deliver s => installed s = true \/ default_terminates s = false
  | _ => True
  end.

(* The statements the process gets to execute in a schedule. *)
Definition count_steps (schedule : list action) : nat :=
  List.length (filter (fun a => match a with Step => true | _ => false end)
                 schedule).

(* The statements an activation still has to execute, its [exit]
   included. *)
Definition remaining (pc : handler_pc) : nat :=
  match pc with
  | AtPrintf => 6 | AtRmWatch => 5 | AtCheck => 4
  | AtClose => 3 | AtUninit => 2 | AtExit => 1
  end.

(* A bound on the statements executed before [exit] once a handler runs:
   those left to the innermost activation, and five for each of the
   installed signals that has not interrupted yet. *)
Definition statements_left (p : process) : nat :=
  match exit_status p, frames p with
  | Some _, _ => 0
  | None, [] => 16
  | None, f :: outer => remaining (pc f) + 5 * (3 - List.length (frames p))
  end.

(* The activations belong to distinct installed signals. *)
Definition frames_distinct (p : process) : Prop :=
  NoDup (map signum (frames p)) /\
  Forall (fun f => installed (signum f) = true) (frames p).

(* The process in its loop, no handler running and no read having failed:
   the watch still registered or not, and the calls made so far. *)
Definition idle (fd wd : Z) (live : bool) (calls : list io) : process :=
  {| IeventQueue := fd; IeventDescriptor := wd;
     res := {| queue_open := true; watch_live := live; libnotify_up := true |};
     at_main := InLoop;
     frames := []; exit_status := None; killed_by := None; log := calls |}.

(* With a single signal: at most one activation, and the calls of the
   teardown made so far are those before its position. *)
Definition single_ok (sig : Z) (p : process) : Prop :=
  match frames p with
  | [] =>
      filter is_rm_watch (log p) = [] /\ filter is_close (log p) = []
  | [f] =>
      signum f = sig /\
      List.length (filter is_rm_watch (log p)) =
        match pc f with AtPrintf | AtRmWatch => 0%nat | _ => 1%nat end /\
      List.length (filter is_close (log p)) =
        match pc f with AtUninit | AtExit => 1%nat | _ => 0%nat end
  | _ => False
  end.

(* As long as the kernel has not dropped the watch: no removal failed, and
   the watch is there until the handler removes it. *)
Definition undropped_ok (p : process) : Prop :=
  filter is_rm_watch (log p) = filter is_rm_watch_ok (log p) /\
  match frames p with
  | [] => queue_open (res p) = true /\ watch_live (res p) = true
  | f :: _ =>
      match pc f with
      | AtPrintf | AtRmWatch =>
          queue_open (res p) = true /\ watch_live (res p) = true
      | _ => True
      end
  end.

(** * Properties *)

(** ** Classification *)

Lemma flag_set_false_iff (mask f : Z) :
  flag_set mask f = false <-> Z.land mask f = 0.
Proof.
  unfold flag_set. rewrite negb_false_iff. apply Z.eqb_eq.
Qed.

(* The program's chain ends on the last matching test. *)
Lemma select_message_last_match (mask : Z) :
  select_message mask = category_message (last_match_classify mask).
Proof.
  unfold select_message, last_match_classify, first_match. simpl.
  destruct (flag_set mask IN_MOVE_SELF); [reflexivity|].
  destruct (flag_set mask IN_MODIFY); [reflexivity|].
  destruct (flag_set mask IN_CLOSE_WRITE); [reflexivity|].
  destruct (flag_set mask IN_ACCESS); [reflexivity|].
  destruct (flag_set mask IN_DELETE); [reflexivity|].
  destruct (flag_set mask IN_CREATE); reflexivity.
Qed.

Lemma category_message_inj (c d : EventCategory) :
  category_message c = category_message d -> c = d.
Proof.
  destruct c, d; simpl; intros H; try reflexivity; try discriminate H;
    injection H as H; vm_compute in H; discriminate H.
Qed.

Lemma select_message_none_iff (mask : Z) :
  select_message mask = None <-> Z.land mask watch_flags = 0.
Proof.
  unfold watch_flags. rewrite !Z.land_lor_distr_r, !Z.lor_eq_0_iff.
  rewrite <- !flag_set_false_iff. unfold select_message.
  destruct (flag_set mask IN_CREATE), (flag_set mask IN_DELETE),
    (flag_set mask IN_ACCESS), (flag_set mask IN_CLOSE_WRITE),
    (flag_set mask IN_MODIFY), (flag_set mask IN_MOVE_SELF);
    split; intros H; try reflexivity; try discriminate H;
    try (repeat split; reflexivity);
    decompose [and] H; discriminate.
Qed.

(** C2, as stated, fails: with the Created and the Modified bit set the
    first match of the specified order is Created, yet the message the
    program ends on is the one of Modified. *)
Lemma first_match_wins_refuted :
  flag_set (Z.lor IN_CREATE IN_MODIFY) IN_CREATE = true /\
  flag_set (Z.lor IN_CREATE IN_MODIFY) IN_MODIFY = true /\
  spec_classify (Z.lor IN_CREATE IN_MODIFY) = Created /\
  select_message (Z.lor IN_CREATE IN_MODIFY) = category_message Modified /\
  select_message (Z.lor IN_CREATE IN_MODIFY) <>
    category_message (spec_classify (Z.lor IN_CREATE IN_MODIFY)).
Proof.
  repeat split; try reflexivity.
  vm_compute. discriminate.
Qed.

(** C2, amended: for every flag bitmask the message chosen is the one of
    the last matching category in the order Created, Deleted, Accessed,
    WrittenAndClosed, Modified, MovedSelf, that is the first match of the
    reversed order; a mask with the Created and Modified bits classifies as
    Modified. *)
Theorem last_match_wins (mask : Z) :
  select_message mask =
    category_message
      (first_match
         [MovedSelf; Modified; WrittenAndClosed; Accessed; Deleted; Created]
         mask) /\
  select_message (Z.lor IN_CREATE IN_MODIFY) = category_message Modified.
Proof.
  split; [apply select_message_last_match | reflexivity].
Qed.

(** C6: classification is total.  Every mask gets the message of exactly
    one category; it is Ignored exactly when none of the six recognised
    flags is set; and the loop body leaves the run untouched, so requests
    no notification, for an Ignored record. *)
Theorem classification_total (mask : Z) :
  (exists! c, select_message mask = category_message c) /\
  (select_message mask = category_message Ignored <->
   Z.land mask watch_flags = 0) /\
  (forall snk basePath watchEvent st,
     select_message mask = category_message Ignored ->
     process_event snk basePath watchEvent mask st = st).
Proof.
  split; [|split].
  - exists (last_match_classify mask). split.
    + apply select_message_last_match.
    + intros c Hc. apply category_message_inj.
      rewrite <- Hc. symmetry. apply select_message_last_match.
  - apply select_message_none_iff.
  - intros snk basePath watchEvent st H. unfold process_event.
    simpl in H. rewrite H. reflexivity.
Qed.

Lemma classification_total_witness :
  process_event (fun _ => Shown) "f" 0 IN_IGNORED
      {| out := []; requested := 0 |} = {| out := []; requested := 0 |} /\
  process_event (fun _ => Shown) "f" 0 IN_Q_OVERFLOW
      {| out := []; requested := 0 |} = {| out := []; requested := 0 |}.
Proof.
  split.
  - apply (proj2 (proj2 (classification_total IN_IGNORED))). reflexivity.
  - apply (proj2 (proj2 (classification_total IN_Q_OVERFLOW))). reflexivity.
Defined.

(** ** The walk over one buffer *)

(* One turn of the loop, as an equation. *)
Lemma event_loop_step {S : Type} (body : Z -> Z -> S -> S)
    (buf : list byte) (readLength p : Z) (s : S) :
  event_loop body buf readLength p s =
  if p <? readLength then
    match load_u32 buf (p + offsetof_mask) with
    | None => (s, OutOfBounds p)
    | Some mask =>
        match load_u32 buf (p + offsetof_len) with
        | None => (body p mask s, OutOfBounds p)
        | Some len =>
            event_loop body buf readLength (advance p len) (body p mask s)
        end
    end
  else (s, Finished p).
Proof.
  funelim (event_loop body buf readLength p s);
    destruct (Z.ltb_spec buffPointer readLength); try lia;
    rewrite ?Heq; try reflexivity.
  - rewrite e. reflexivity.
  - rewrite e. reflexivity.
Qed.

(* Induction along the cursor: to prove [P] at a cursor, [P] may be used
   at every cursor an iteration from there advances to. *)
Lemma cursor_ind (buf : list byte) (readLength : Z) (P : Z -> Prop) :
  (forall p,
     (forall len, p < readLength ->
        load_u32 buf (p + offsetof_len) = Some len -> P (advance p len)) ->
     P p) ->
  forall p, P p.
Proof.
  intros step p.
  remember (Z.to_nat (readLength - p)) as n eqn:Hn.
  revert p Hn. induction n as [n IH] using lt_wf_ind. intros p Hn.
  apply step. intros len Hlt Hlen.
  apply load_u32_nonneg in Hlen.
  apply (IH (Z.to_nat (readLength - advance p len))); [|reflexivity].
  unfold advance, sizeof_inotify_event. lia.
Qed.

(* The loop with any body is the fold of that body over the records the
   loop yields. *)
Lemma event_loop_as_fold {S : Type} (body : Z -> Z -> S -> S)
    (buf : list byte) (readLength : Z) :
  forall p (s : S) (seen : list (Z * Z)),
    event_loop body buf readLength p s =
      (fold_left (fun s v => body (fst v) (snd v) s)
         (fst (event_loop record_visit buf readLength p [])) s,
       snd (event_loop record_visit buf readLength p [])) /\
    event_loop record_visit buf readLength p seen =
      (seen ++ fst (event_loop record_visit buf readLength p []),
       snd (event_loop record_visit buf readLength p [])).
Proof.
  intros p. pattern p. apply (cursor_ind buf readLength). clear p.
  intros p IH s seen.
  rewrite (event_loop_step body), (event_loop_step record_visit _ _ _ seen),
    (event_loop_step record_visit _ _ _ []).
  destruct (Z.ltb_spec p readLength) as [Hlt|Hge]; simpl.
  2: { rewrite app_nil_r. split; reflexivity. }
  destruct (load_u32 buf (p + offsetof_mask)) as [mask|]; simpl.
  2: { rewrite app_nil_r. split; reflexivity. }
  destruct (load_u32 buf (p + offsetof_len)) as [len|] eqn:Hlen; simpl.
  2: { split; reflexivity. }
  specialize (IH len Hlt eq_refl).
  destruct (IH (body p mask s) (record_visit p mask seen)) as [IHb IHs].
  destruct (IH s (record_visit p mask [])) as [_ IH0].
  rewrite IHb, IHs, IH0. unfold record_visit. simpl.
  rewrite <- app_assoc. split; reflexivity.
Qed.

(** ** Buffers of whole records *)

Lemma load_u32_at (pre x post : list byte) :
  List.length x = 4%nat ->
  load_u32 (pre ++ x ++ post) (Z.of_nat (List.length pre)) = Some (le_combine x).
Proof.
  intros Hx. unfold load_u32.
  rewrite !length_app, Hx.
  destruct (Z.leb_spec 0 (Z.of_nat (List.length pre))); [|lia].
  destruct (Z.leb_spec (Z.of_nat (List.length pre) + 4)
              (Z.of_nat (List.length pre + (4 + List.length post)))); [|lia].
  cbn [andb]. rewrite Nat2Z.id, skipn_app, skipn_all, Nat.sub_diag.
  cbn [skipn app].
  rewrite <- Hx, firstn_app, firstn_all, Nat.sub_diag.
  cbn [firstn]. rewrite app_nil_r. reflexivity.
Qed.

Lemma length_encode_event (e : inotify_event) :
  Z.of_nat (List.length (encode_event e)) = sizeof_inotify_event + len e.
Proof.
  unfold encode_event, len, sizeof_inotify_event.
  rewrite !length_app, !length_le_split. lia.
Qed.

Lemma length_encode_events (evs : list inotify_event) :
  Z.of_nat (List.length (encode_events evs)) = consumed evs.
Proof.
  induction evs as [|e evs IH]; [reflexivity|].
  unfold encode_events. cbn [map concat]. fold (encode_events evs).
  rewrite length_app, Nat2Z.inj_add, IH, length_encode_event.
  cbn [consumed fold_right]. fold (consumed evs). lia.
Qed.

(* The two fields the loop reads, in a buffer that continues with an
   encoded record at [pre]. *)
Lemma load_fields_encoded (pre post : list byte) (e : inotify_event) :
  well_formed e ->
  load_u32 (pre ++ encode_event e ++ post)
    (Z.of_nat (List.length pre) + offsetof_mask) = Some (mask e) /\
  load_u32 (pre ++ encode_event e ++ post)
    (Z.of_nat (List.length pre) + offsetof_len) = Some (len e).
Proof.
  intros [Hm Hl]. unfold encode_event, offsetof_mask, offsetof_len.
  assert (Hlen0 : 0 <= len e) by (unfold len; lia).
  split.
  - replace (pre ++ (le_split 4 (wd e) ++ le_split 4 (mask e) ++
               le_split 4 (cookie e) ++ le_split 4 (len e) ++ name e) ++ post)
      with ((pre ++ le_split 4 (wd e)) ++ le_split 4 (mask e) ++
            (le_split 4 (cookie e) ++ le_split 4 (len e) ++ name e ++ post))
      by (rewrite <- !app_assoc; reflexivity).
    replace (Z.of_nat (List.length pre) + 4)
      with (Z.of_nat (List.length (pre ++ le_split 4 (wd e))))
      by (rewrite length_app, length_le_split; lia).
    rewrite load_u32_at by apply length_le_split.
    rewrite le_combine_split. f_equal. apply Z.mod_small. simpl. lia.
  - replace (pre ++ (le_split 4 (wd e) ++ le_split 4 (mask e) ++
               le_split 4 (cookie e) ++ le_split 4 (len e) ++ name e) ++ post)
      with ((pre ++ le_split 4 (wd e) ++ le_split 4 (mask e) ++
               le_split 4 (cookie e)) ++ le_split 4 (len e) ++ (name e ++ post))
      by (rewrite <- !app_assoc; reflexivity).
    replace (Z.of_nat (List.length pre) + 12)
      with (Z.of_nat (List.length (pre ++ le_split 4 (wd e) ++
               le_split 4 (mask e) ++ le_split 4 (cookie e))))
      by (rewrite !length_app, !length_le_split; lia).
    rewrite load_u32_at by apply length_le_split.
    rewrite le_combine_split. f_equal. apply Z.mod_small. simpl. lia.
Qed.

(* The walk over encoded records, started at the first of them, runs the
   body once per record and stops exactly at their end. *)
Lemma event_loop_encoded {S : Type} (body : Z -> Z -> S -> S)
    (evs : list inotify_event) :
  Forall well_formed evs ->
  forall (pre post : list byte) (s : S),
    event_loop body (pre ++ encode_events evs ++ post)
      (Z.of_nat (List.length pre) + consumed evs)
      (Z.of_nat (List.length pre)) s =
    (fold_left (fun s v => body (fst v) (snd v) s)
       (record_starts (Z.of_nat (List.length pre)) evs) s,
     Finished (Z.of_nat (List.length pre) + consumed evs)).
Proof.
  induction 1 as [|e evs He Hevs IH]; intros pre post s.
  - rewrite event_loop_step. simpl.
    destruct (Z.ltb_spec (Z.of_nat (List.length pre))
                (Z.of_nat (List.length pre) + 0)); [lia|].
    rewrite Z.add_0_r. reflexivity.
  - rewrite event_loop_step.
    assert (Hl : 0 <= len e) by (unfold len; lia).
    assert (Hc : 0 <= consumed evs)
      by (rewrite <- length_encode_events; lia).
    cbn [consumed fold_right]. fold (consumed evs).
    destruct (Z.ltb_spec (Z.of_nat (List.length pre))
                (Z.of_nat (List.length pre) +
                 (sizeof_inotify_event + len e + consumed evs)));
      [|unfold sizeof_inotify_event in *; lia].
    unfold encode_events. cbn [map concat]. fold (encode_events evs).
    rewrite <- (app_assoc (encode_event e)).
    destruct (load_fields_encoded pre (encode_events evs ++ post) e He)
      as [-> ->].
    specialize (IH (pre ++ encode_event e) post (body (Z.of_nat (List.length pre)) (mask e) s)).
    rewrite length_app, Nat2Z.inj_add, length_encode_event in IH.
    rewrite <- app_assoc in IH.
    unfold advance.
    replace (Z.of_nat (List.length pre) +
             (sizeof_inotify_event + len e + consumed evs))
      with (Z.of_nat (List.length pre) + (sizeof_inotify_event + len e) +
            consumed evs) by lia.
    rewrite IH. reflexivity.
Qed.

Lemma record_starts_length (evs : list inotify_event) (p : Z) :
  List.length (record_starts p evs) = List.length evs.
Proof.
  revert p. induction evs as [|e evs IH]; intros p; simpl; [|rewrite IH];
    reflexivity.
Qed.

Lemma record_starts_within (evs : list inotify_event) (p : Z) :
  0 <= p ->
  Forall2 (fun e v => snd v = mask e /\ 0 <= fst v /\
                      fst v + (sizeof_inotify_event + len e) <= p + consumed evs)
    evs (record_starts p evs).
Proof.
  revert p. induction evs as [|e evs IH]; intros p Hp; simpl; constructor.
  - simpl. assert (0 <= consumed evs)
      by (rewrite <- length_encode_events; lia). lia.
  - assert (Hl : 0 <= len e) by (unfold len; lia).
    assert (Hp' : 0 <= p + (sizeof_inotify_event + len e))
      by (unfold sizeof_inotify_event; lia).
    specialize (IH _ Hp').
    eapply Forall2_impl; [|exact IH].
    simpl. intros a b (Hm & H0 & H1). repeat split; try assumption. lia.
Qed.

(** C3: a buffer made of K whole, well-formed records (followed by
    whatever the array held before) is walked in exactly K iterations, one
    per record and with that record's mask; the walk ends with the cursor
    exactly at the read length, which is the sum of header size and name
    length over the records; and every record visited lies, header and
    name, within the read length. *)
Theorem whole_records_decoded (evs : list inotify_event) (stale : list byte) :
  Forall well_formed evs ->
  event_loop record_visit (encode_events evs ++ stale)
    (Z.of_nat (List.length (encode_events evs))) 0 [] =
    (record_starts 0 evs,
     Finished (Z.of_nat (List.length (encode_events evs)))) /\
  List.length (record_starts 0 evs) = List.length evs /\
  consumed evs = Z.of_nat (List.length (encode_events evs)) /\
  Forall2 (fun e v => snd v = mask e /\ 0 <= fst v /\
             fst v + (sizeof_inotify_event + len e) <=
               Z.of_nat (List.length (encode_events evs)))
    evs (record_starts 0 evs).
Proof.
  intros Hwf. rewrite length_encode_events. repeat split.
  - pose proof (event_loop_encoded record_visit evs Hwf [] stale []) as H.
    cbn [List.length app Z.of_nat] in H. rewrite Z.add_0_l in H.
    rewrite H. f_equal.
    generalize (record_starts 0 evs). intros l.
    change l with ([] ++ l) at 2. generalize (@nil (Z * Z)).
    induction l as [|v l IH]; intros acc; simpl.
    + rewrite app_nil_r. reflexivity.
    + rewrite IH. unfold record_visit. rewrite <- app_assoc.
      destruct v. reflexivity.
  - apply record_starts_length.
  - pose proof (record_starts_within evs 0 (Z.le_refl 0)) as H.
    rewrite Z.add_0_l in H. exact H.
Qed.

Lemma whole_records_decoded_witness :
  event_loop record_visit (encode_events two_events ++ [])
    (Z.of_nat (List.length (encode_events two_events))) 0 [] =
    (record_starts 0 two_events,
     Finished (Z.of_nat (List.length (encode_events two_events)))) /\
  List.length (record_starts 0 two_events) = List.length two_events /\
  consumed two_events = Z.of_nat (List.length (encode_events two_events)) /\
  Forall2 (fun e v => snd v = mask e /\ 0 <= fst v /\
             fst v + (sizeof_inotify_event + len e) <=
               Z.of_nat (List.length (encode_events two_events)))
    two_events (record_starts 0 two_events).
Proof.
  apply (whole_records_decoded two_events []).
  repeat constructor; vm_compute; congruence.
Defined.

(** ** Buffers with a truncated tail *)

Lemma load_u32_inside (buf : list byte) (off : Z) :
  0 <= off -> off + 4 <= Z.of_nat (List.length buf) ->
  exists v, load_u32 buf off = Some v.
Proof.
  intros H0 H1. unfold load_u32.
  destruct (Z.leb_spec 0 off); [|lia].
  destruct (Z.leb_spec (off + 4) (Z.of_nat (List.length buf))); [|lia].
  eexists. reflexivity.
Qed.

Lemma load_u32_none (buf : list byte) (off : Z) :
  load_u32 buf off = None -> off < 0 \/ Z.of_nat (List.length buf) < off + 4.
Proof.
  unfold load_u32.
  destruct (Z.leb_spec 0 off); [|lia].
  destruct (Z.leb_spec (off + 4) (Z.of_nat (List.length buf)));
    [discriminate|lia].
Qed.

(* Where the walk goes: every record it yields starts below the read
   length, and it ends either by its condition or on a header that leaves
   the array. *)
Lemma walk_range (buf : list byte) (readLength : Z) :
  forall p, 0 <= p ->
    Forall (fun v => p <= fst v < readLength)
      (fst (event_loop record_visit buf readLength p [])) /\
    match snd (event_loop record_visit buf readLength p []) with
    | Finished c => readLength <= c /\ p <= c
    | OutOfBounds c =>
        p <= c < readLength /\
        Z.of_nat (List.length buf) < c + sizeof_inotify_event
    end.
Proof.
  intros p. pattern p. apply (cursor_ind buf readLength). clear p.
  intros p IH Hp. rewrite event_loop_step.
  destruct (Z.ltb_spec p readLength) as [Hlt|Hge]; simpl.
  2: { split; [constructor|lia]. }
  unfold offsetof_mask, offsetof_len, sizeof_inotify_event in *.
  destruct (load_u32 buf (p + 4)) as [m|] eqn:Hm; simpl.
  2: { apply load_u32_none in Hm. split; [constructor|lia]. }
  destruct (load_u32 buf (p + 12)) as [l|] eqn:Hl; simpl.
  2: { apply load_u32_none in Hl. split; [|lia].
       repeat constructor; simpl; lia. }
  pose proof (load_u32_nonneg _ _ _ Hl) as Hl0.
  assert (Hadv : p + 16 <= advance p l)
    by (unfold advance, sizeof_inotify_event; lia).
  destruct (IH l Hlt eq_refl) as [IHf IHe]; [lia|].
  destruct (event_loop_as_fold record_visit buf readLength (advance p l)
              [] (record_visit p m [])) as [_ ->].
  simpl. split.
  - constructor; [simpl; lia|].
    eapply Forall_impl; [|exact IHf]. simpl. intros v Hv. lia.
  - destruct (snd (event_loop record_visit buf readLength (advance p l) []));
      lia.
Qed.

(** C1, as stated, fails.  After a read of 8 bytes, half a header, the loop
    does not fail: it yields the record at offset 0 with the Created mask,
    for which [len] is loaded from bytes 12 to 15, past the 8 bytes read,
    and the body requests a notification.  After a read of one header
    whose 32 bytes of name are missing the record is yielded as well and
    the cursor ends at 48, past the read length 16. *)
Lemma truncated_tail_is_decoded :
  snd (read_into zeroed_buffer half_header) = 8 /\
  8 < sizeof_inotify_event /\
  event_loop record_visit (fst (read_into zeroed_buffer half_header)) 8 0 [] =
    ([(0, IN_CREATE)], Finished 16) /\
  out (fst (event_loop (process_event (fun _ => Shown) "f")
              (fst (read_into zeroed_buffer half_header)) 8 0
              {| out := []; requested := 0 |})) =
    [NotificationNew "f" (line "File created.") "dialog-information";
     NotificationSetUrgency NOTIFY_URGENCY_CRITICAL;
     NotificationShow true] /\
  snd (read_into zeroed_buffer header_without_name) = 16 /\
  event_loop record_visit
      (fst (read_into zeroed_buffer header_without_name)) 16 0 [] =
    ([(0, IN_DELETE)], Finished 48).
Proof.
  repeat split; vm_compute; reflexivity.
Qed.

(** C1, amended: the loop makes no truncation check and has no truncation
    error.  Every record it yields starts at a cursor that is at least 0
    and strictly below the read length; the loop ends only when the cursor
    is at or past the read length, or on a header that does not fit the
    array; and at every cursor below the read length where the array holds
    16 bytes, the mask and [len] found there are loaded, the body runs on
    that record and the cursor advances by header size plus [len], however
    few of those bytes the read delivered. *)
Theorem decode_has_no_truncation_check (buf : list byte) (readLength : Z) :
  Forall (fun v => 0 <= fst v < readLength)
    (fst (event_loop record_visit buf readLength 0 [])) /\
  match snd (event_loop record_visit buf readLength 0 []) with
  | Finished c => readLength <= c
  | OutOfBounds c =>
      0 <= c < readLength /\
      Z.of_nat (List.length buf) < c + sizeof_inotify_event
  end /\
  (forall (S : Type) (body : Z -> Z -> S -> S) (p : Z) (s : S),
     0 <= p < readLength ->
     p + sizeof_inotify_event <= Z.of_nat (List.length buf) ->
     exists m l,
       load_u32 buf (p + offsetof_mask) = Some m /\
       load_u32 buf (p + offsetof_len) = Some l /\
       event_loop body buf readLength p s =
         event_loop body buf readLength (advance p l) (body p m s)).
Proof.
  destruct (walk_range buf readLength 0 (Z.le_refl 0)) as [Hf He].
  split; [exact Hf|]. split.
  - destruct (snd (event_loop record_visit buf readLength 0 [])); tauto.
  - intros S body p s Hp Hfit.
    unfold sizeof_inotify_event, offsetof_mask, offsetof_len in *.
    destruct (load_u32_inside buf (p + 4)) as [m Hm]; [lia|lia|].
    destruct (load_u32_inside buf (p + 12)) as [l Hl]; [lia|lia|].
    exists m, l. split; [exact Hm|]. split; [exact Hl|].
    rewrite event_loop_step. unfold offsetof_mask, offsetof_len.
    destruct (Z.ltb_spec p readLength); [|lia].
    rewrite Hm, Hl. reflexivity.
Qed.

Lemma decode_has_no_truncation_check_witness :
  exists m l,
    load_u32 (fst (read_into zeroed_buffer half_header)) (0 + offsetof_mask) =
      Some m /\
    load_u32 (fst (read_into zeroed_buffer half_header)) (0 + offsetof_len) =
      Some l /\
    event_loop record_visit (fst (read_into zeroed_buffer half_header)) 8 0 [] =
      event_loop record_visit (fst (read_into zeroed_buffer half_header)) 8
        (advance 0 l) (record_visit 0 m []).
Proof.
  apply (proj2 (proj2 (decode_has_no_truncation_check
                         (fst (read_into zeroed_buffer half_header)) 8))).
  - lia.
  - vm_compute. discriminate.
Defined.

(** ** The display name *)

Section Tokenisation.

Local Open Scope nat_scope.

(* One turn of the tokenisation loop, as an equation. *)
Lemma last_token_loop_step (t : nat) (basePath : option nat) (st : strtok_state) :
  last_token_loop (Some t) basePath st =
    last_token_loop (fst (strtok None path_delim st)) (Some t)
      (snd (strtok None path_delim st)).
Proof.
  rewrite last_token_loop_equation_1.
  unfold last_token_loop_unfold_clause_2, inspect.
  destruct (strtok None path_delim st) as [token' st']. reflexivity.
Qed.

(* [basePath] starts non-NULL and is only ever assigned a non-NULL token. *)
Lemma last_token_loop_not_null (token basePath : option nat) (st : strtok_state) :
  basePath <> None -> fst (last_token_loop token basePath st) <> None.
Proof.
  funelim (last_token_loop token basePath st); intros Hb.
  - exact Hb.
  - match goal with IH : _ -> fst _ <> None |- _ => apply IH end.
    discriminate.
Qed.

Lemma is_nul_slash : is_nul slash = false.
Proof. reflexivity. Qed.

Lemma is_delim_slash : is_delim path_delim slash = true.
Proof. reflexivity. Qed.

Lemma skipn_length_app {A : Type} (a b : list A) :
  skipn (List.length a) (a ++ b) = b.
Proof.
  rewrite skipn_app, skipn_all, Nat.sub_diag. reflexivity.
Qed.

Lemma char_at_app (a b : list ascii) (c : ascii) :
  char_at (a ++ c :: b) (List.length a) = c.
Proof.
  unfold char_at. rewrite app_nth2, Nat.sub_diag by lia. reflexivity.
Qed.

Lemma store_app (a b : list ascii) (c x : ascii) :
  store (a ++ c :: b) (List.length a) x = a ++ x :: b.
Proof.
  induction a as [|y a IH]; simpl; [reflexivity|]. rewrite IH. reflexivity.
Qed.

Lemma strcspn_plain (t r : list ascii) :
  Forall plain t ->
  strcspn (t ++ r) path_delim = List.length t + strcspn r path_delim.
Proof.
  induction 1 as [|c t [Hn Hd] Ht IH]; [reflexivity|].
  cbn [app strcspn List.length]. rewrite Hn, Hd, IH. reflexivity.
Qed.

Lemma c_chars_plain (t r : list ascii) :
  Forall plain t -> c_chars (t ++ NUL :: r) = t.
Proof.
  induction 1 as [|c t [Hn Hd] Ht IH]; [reflexivity|].
  cbn [app c_chars]. rewrite Hn, IH. reflexivity.
Qed.

(* [strtok(NULL, "/")] at the terminator: no token, nothing changes. *)
Lemma strtok_at_end (done r : list ascii) :
  strtok None path_delim
    {| mem := done ++ NUL :: r; olds := List.length done |} =
  (None, {| mem := done ++ NUL :: r; olds := List.length done |}).
Proof.
  unfold strtok. cbn [mem olds].
  rewrite skipn_length_app. cbn [strspn]. change (is_nul NUL) with true.
  cbn iota. rewrite Nat.add_0_r, char_at_app. reflexivity.
Qed.

(* A leading ['/'] is skipped: the call behaves as if it started behind
   it. *)
Lemma strtok_skips_slash (done r : list ascii) :
  strtok None path_delim
    {| mem := done ++ slash :: r; olds := List.length done |} =
  strtok None path_delim
    {| mem := (done ++ [slash]) ++ r; olds := List.length (done ++ [slash]) |}.
Proof.
  unfold strtok. cbn [mem olds].
  rewrite (skipn_length_app (done ++ [slash]) r).
  rewrite <- app_assoc. cbn [app].
  rewrite skipn_length_app. cbn [strspn].
  rewrite is_nul_slash, is_delim_slash, length_app. cbn [List.length].
  replace (List.length done + S (strspn r path_delim))
    with (List.length done + 1 + strspn r path_delim) by lia.
  reflexivity.
Qed.

(* A token followed by ['/']: the ['/'] becomes the terminator and the
   saved position is the character behind it. *)
Lemma strtok_token_slash (done t r : list ascii) :
  Forall plain t -> t <> [] ->
  strtok None path_delim
    {| mem := done ++ t ++ slash :: r; olds := List.length done |} =
  (Some (List.length done),
   {| mem := (done ++ t ++ [NUL]) ++ r;
      olds := List.length (done ++ t ++ [NUL]) |}).
Proof.
  intros Ht Hne. unfold strtok. cbn [mem olds].
  rewrite skipn_length_app.
  destruct t as [|c t]; [congruence|].
  pose proof (Forall_inv Ht) as [Hn Hd].
  cbn [app strspn]. rewrite Hn, Hd, Nat.add_0_r.
  rewrite char_at_app, Hn, skipn_length_app.
  change (c :: t ++ slash :: r) with ((c :: t) ++ slash :: r).
  rewrite (strcspn_plain _ _ Ht). cbn [strcspn].
  rewrite is_nul_slash, is_delim_slash, Nat.add_0_r.
  replace (List.length done + List.length (c :: t))
    with (List.length (done ++ c :: t)) by (rewrite length_app; reflexivity).
  replace (done ++ (c :: t) ++ slash :: r)
    with ((done ++ c :: t) ++ slash :: r) by (rewrite <- app_assoc; reflexivity).
  rewrite char_at_app, is_nul_slash, store_app.
  f_equal. f_equal.
  - rewrite <- !app_assoc. cbn [app]. rewrite <- !app_assoc. reflexivity.
  - cbn [app]. rewrite !length_app. cbn [List.length].
    rewrite length_app. cbn [List.length]. lia.
Qed.

(* A token that runs up to the terminator: nothing is written and the
   saved position is the terminator. *)
Lemma strtok_token_end (done t r : list ascii) :
  Forall plain t -> t <> [] ->
  strtok None path_delim
    {| mem := done ++ t ++ NUL :: r; olds := List.length done |} =
  (Some (List.length done),
   {| mem := (done ++ t) ++ NUL :: r; olds := List.length (done ++ t) |}).
Proof.
  intros Ht Hne. unfold strtok. cbn [mem olds].
  rewrite skipn_length_app.
  destruct t as [|c t]; [congruence|].
  pose proof (Forall_inv Ht) as [Hn Hd].
  cbn [app strspn]. rewrite Hn, Hd, Nat.add_0_r.
  rewrite char_at_app, Hn, skipn_length_app.
  change (c :: t ++ NUL :: r) with ((c :: t) ++ NUL :: r).
  rewrite (strcspn_plain _ _ Ht). cbn [strcspn].
  change (is_nul NUL) with true. cbn iota. rewrite Nat.add_0_r.
  replace (List.length done + List.length (c :: t))
    with (List.length (done ++ c :: t)) by (rewrite length_app; reflexivity).
  replace (done ++ (c :: t) ++ NUL :: r)
    with ((done ++ c :: t) ++ NUL :: r) by (rewrite <- app_assoc; reflexivity).
  rewrite char_at_app. reflexivity.
Qed.

(* On segments followed by a last, non-empty segment the loop ends with
   [basePath] at that last segment, which the block still holds. *)
Lemma tokenize_from_segments (seg : list ascii) :
  Forall plain seg -> seg <> [] ->
  forall toks, Forall (Forall plain) toks ->
  forall done basePath,
    exists st',
      tokenize_from basePath
        {| mem := done ++ segments toks ++ seg ++ [NUL];
           olds := List.length done |} =
        (Some (List.length done + List.length (segments toks)), st') /\
      c_chars (skipn (List.length done + List.length (segments toks))
                 (mem st')) = seg.
Proof.
  intros Hseg Hne. induction 1 as [|t toks Ht Htoks IH]; intros done basePath.
  - cbn [segments map concat List.length app]. rewrite Nat.add_0_r.
    unfold tokenize_from.
    rewrite (strtok_token_end done seg []) by assumption. cbn [fst snd].
    rewrite last_token_loop_step, strtok_at_end. cbn [fst snd].
    rewrite last_token_loop_equation_2.
    eexists. split; [reflexivity|]. cbn [mem].
    rewrite <- app_assoc, skipn_length_app. apply c_chars_plain, Hseg.
  - unfold segments. cbn [map concat]. fold (segments toks).
    destruct t as [|c t].
    + cbn [app List.length].
      unfold tokenize_from. rewrite strtok_skips_slash.
      destruct (IH (done ++ [slash]) basePath) as (st' & Hrun & Hstr).
      unfold tokenize_from in Hrun.
      rewrite length_app in Hrun, Hstr |- *.
      cbn [List.length] in Hrun, Hstr |- *.
      replace (List.length done + S (List.length (segments toks)))
        with (List.length done + 1 + List.length (segments toks)) by lia.
      exists st'. split; assumption.
    + unfold tokenize_from. rewrite <- !app_assoc.
      change ([slash] ++ segments toks ++ seg ++ [NUL])
        with (slash :: segments toks ++ seg ++ [NUL]).
      rewrite (strtok_token_slash done (c :: t)) by (assumption || discriminate).
      cbn [fst snd]. rewrite last_token_loop_step.
      destruct (IH (done ++ (c :: t) ++ [NUL]) (Some (List.length done)))
        as (st' & Hrun & Hstr).
      unfold tokenize_from in Hrun.
      assert (Hpos : List.length (done ++ (c :: t) ++ [NUL]) +
                     List.length (segments toks) =
                     List.length done +
                     List.length ((c :: t) ++ slash :: segments toks)).
      { repeat first [rewrite length_app | progress cbn [List.length app]].
        lia. }
      rewrite Hpos in Hrun, Hstr.
      exists st'. split; [exact Hrun|exact Hstr].
Qed.

(* On a run of ['/'] alone no token is found: [basePath] and the block
   stay as they are. *)
Lemma tokenize_from_slashes (l : list ascii) :
  Forall (eq slash) l ->
  forall done basePath,
    tokenize_from basePath
      {| mem := done ++ l ++ [NUL]; olds := List.length done |} =
    (basePath,
     {| mem := done ++ l ++ [NUL];
        olds := List.length done + List.length l |}).
Proof.
  induction 1 as [|c l <- Hl IH]; intros done basePath.
  - unfold tokenize_from. cbn [app]. rewrite strtok_at_end. cbn [fst snd].
    rewrite last_token_loop_equation_2, Nat.add_0_r. reflexivity.
  - unfold tokenize_from. cbn [app]. rewrite strtok_skips_slash.
    specialize (IH (done ++ [slash]) basePath). unfold tokenize_from in IH.
    rewrite IH. rewrite <- app_assoc, length_app. cbn [app List.length].
    f_equal. f_equal. lia.
Qed.

(* Every path followed by ['/'] is a sequence of segments. *)
Lemma split_segments (l : list ascii) :
  Forall (fun c => is_nul c = false) l ->
  exists toks, Forall (Forall plain) toks /\ l ++ [slash] = segments toks.
Proof.
  induction 1 as [|c l Hc Hl (toks & Htoks & Heq)].
  - exists [[]]. split; [repeat constructor|reflexivity].
  - destruct toks as [|t0 ts].
    + destruct l; discriminate Heq.
    + destruct (is_delim path_delim c) eqn:Hd.
      * exists ([] :: t0 :: ts). split; [constructor; [constructor|exact Htoks]|].
        unfold is_delim in Hd. cbn [existsb path_delim] in Hd.
        rewrite orb_false_r in Hd. apply Ascii.eqb_eq in Hd. subst c.
        cbn [app]. rewrite Heq. reflexivity.
      * exists ((c :: t0) :: ts). split.
        -- inversion Htoks; subst. constructor; [|assumption].
           constructor; [split; assumption|assumption].
        -- cbn [app]. rewrite Heq. reflexivity.
Qed.

End Tokenisation.

Lemma list_ascii_of_string_app (s1 s2 : string) :
  list_ascii_of_string (String.append s1 s2) =
  list_ascii_of_string s1 ++ list_ascii_of_string s2.
Proof.
  induction s1 as [|c s1 IH]; simpl; [reflexivity|]. rewrite IH. reflexivity.
Qed.

Lemma free_of_nul_chars (s : string) :
  free_of NUL s = true ->
  Forall (fun c => is_nul c = false) (list_ascii_of_string s).
Proof.
  unfold free_of. rewrite forallb_forall, Forall_forall.
  intros H c Hc. specialize (H c Hc). apply negb_true_iff in H. exact H.
Qed.

Lemma free_of_plain (s : string) :
  free_of NUL s = true -> free_of slash s = true ->
  Forall plain (list_ascii_of_string s).
Proof.
  unfold free_of. rewrite !forallb_forall, Forall_forall.
  intros Hn Hs c Hc. specialize (Hn c Hc). specialize (Hs c Hc).
  apply negb_true_iff in Hn, Hs. split; [exact Hn|].
  unfold is_delim. cbn [existsb path_delim]. rewrite Hs. reflexivity.
Qed.

Lemma c_chars_no_nul (l : list ascii) :
  Forall (fun c => is_nul c = false) l -> c_chars l = l.
Proof.
  induction 1 as [|c l Hc Hl IH]; simpl; [reflexivity|].
  rewrite Hc, IH. reflexivity.
Qed.

Lemma c_chars_terminated (l r : list ascii) :
  Forall (fun c => is_nul c = false) l -> c_chars (l ++ NUL :: r) = l.
Proof.
  induction 1 as [|c l Hc Hl IH]; simpl; [reflexivity|].
  rewrite Hc, IH. reflexivity.
Qed.

(* The first call, [strtok(basePath, "/")] on the fresh copy, is a call
   from the saved position 0. *)
Lemma tokenize_from_start (argv1 : string) :
  tokenize argv1 =
  tokenize_from (Some 0%nat) {| mem := [] ++ strcpy_new argv1; olds := 0 |}.
Proof.
  unfold tokenize, tokenize_from.
  change (strtok (Some 0%nat) path_delim {| mem := strcpy_new argv1; olds := 0 |})
    with (strtok None path_delim {| mem := [] ++ strcpy_new argv1; olds := 0 |}).
  destruct (strtok None path_delim _). reflexivity.
Qed.

Lemma tokenize_not_null (argv1 : string) : fst (tokenize argv1) <> None.
Proof.
  unfold tokenize.
  destruct (strtok (Some 0%nat) path_delim _) as [token st].
  apply last_token_loop_not_null. discriminate.
Qed.

Lemma display_name_some (argv1 : string) :
  exists basePath, display_name argv1 = Some basePath.
Proof.
  unfold display_name. pose proof (tokenize_not_null argv1) as H.
  destruct (tokenize argv1) as [[p|] st]; simpl in *; [|congruence].
  eexists. reflexivity.
Qed.

Lemma display_name_last_segment (pre seg : string) :
  free_of NUL (String.append pre (String.append "/" seg)) = true ->
  free_of slash seg = true ->
  seg <> EmptyString ->
  display_name (String.append pre (String.append "/" seg)) = Some seg.
Proof.
  intros Hnul Hslash Hne.
  pose proof (free_of_nul_chars _ Hnul) as Hchars.
  rewrite !list_ascii_of_string_app in Hchars.
  change (list_ascii_of_string "/") with [slash] in Hchars.
  apply Forall_app in Hchars. destruct Hchars as [Hpre Hrest].
  apply Forall_app in Hrest. destruct Hrest as [_ Hseg0].
  assert (Hseg : Forall plain (list_ascii_of_string seg)).
  { apply free_of_plain; [|exact Hslash].
    unfold free_of. apply forallb_forall. intros c Hc.
    rewrite Forall_forall in Hseg0. specialize (Hseg0 c Hc).
    unfold is_nul in Hseg0. rewrite Hseg0. reflexivity. }
  assert (Hne' : list_ascii_of_string seg <> []).
  { destruct seg; [congruence|discriminate]. }
  destruct (split_segments _ Hpre) as (toks & Htoks & Heq).
  unfold display_name. rewrite tokenize_from_start.
  unfold strcpy_new. rewrite c_chars_no_nul.
  2: { apply free_of_nul_chars, Hnul. }
  rewrite !list_ascii_of_string_app.
  change (list_ascii_of_string "/") with [slash].
  replace ((list_ascii_of_string pre ++ [slash] ++ list_ascii_of_string seg)
             ++ [NUL])
    with (segments toks ++ list_ascii_of_string seg ++ [NUL])
    by (rewrite <- Heq, <- !app_assoc; reflexivity).
  destruct (tokenize_from_segments _ Hseg Hne' toks Htoks [] (Some 0%nat))
    as (st' & Hrun & Hstr).
  cbn [List.length Nat.add] in Hrun, Hstr.
  rewrite Hrun. cbn [option_map]. unfold c_string. rewrite Hstr.
  rewrite string_of_list_ascii_of_string. reflexivity.
Qed.

Lemma display_name_no_slash (path : string) :
  free_of NUL path = true -> free_of slash path = true ->
  display_name path = Some path.
Proof.
  intros Hnul Hslash.
  unfold display_name. rewrite tokenize_from_start.
  unfold strcpy_new. rewrite c_chars_no_nul by (apply free_of_nul_chars, Hnul).
  destruct path as [|c path].
  - reflexivity.
  - pose proof (free_of_plain _ Hnul Hslash) as Hseg.
    destruct (tokenize_from_segments _ Hseg
                ltac:(discriminate) [] (Forall_nil _) [] (Some 0%nat))
      as (st' & Hrun & Hstr).
    cbn [segments map concat app List.length Nat.add] in Hrun, Hstr.
    cbn [app]. rewrite Hrun. cbn [option_map]. unfold c_string.
    rewrite Hstr, string_of_list_ascii_of_string. reflexivity.
Qed.

Lemma display_name_only_slashes (path : string) :
  only_slashes path = true -> display_name path = Some path.
Proof.
  intros H. unfold only_slashes in H.
  assert (Hall : Forall (eq slash) (list_ascii_of_string path)).
  { apply Forall_forall. intros c Hc.
    rewrite forallb_forall in H. specialize (H c Hc).
    apply Ascii.eqb_eq in H. exact H. }
  assert (Hnn : Forall (fun c => is_nul c = false) (list_ascii_of_string path)).
  { eapply Forall_impl; [|exact Hall]. intros c <-. reflexivity. }
  unfold display_name. rewrite tokenize_from_start.
  unfold strcpy_new. rewrite c_chars_no_nul by exact Hnn.
  rewrite tokenize_from_slashes by exact Hall.
  cbn [option_map mem app]. unfold c_string. cbn [skipn].
  change [NUL] with (NUL :: []).
  rewrite c_chars_terminated by exact Hnn.
  rewrite string_of_list_ascii_of_string. reflexivity.
Qed.

(** ** Runs of [main] *)

Section LoopInvariants.

Variable basePath : string.
Variable Q : io -> Prop.
Hypothesis Q_loop_call : forall e, loop_call basePath e -> Q e.

Lemma process_event_keeps snk watchEvent m st :
  Forall Q (out st) -> Forall Q (out (process_event snk basePath watchEvent m st)).
Proof.
  intros H. unfold process_event.
  destruct (select_message m) as [msg|]; [|exact H].
  destruct (snk (requested st)); unfold emit; cbn [out];
    repeat (apply Forall_app; split); try exact H;
    repeat constructor; apply Q_loop_call; exact I || reflexivity.
Qed.

Lemma process_events_keeps snk visits st :
  Forall Q (out st) -> Forall Q (out (process_events snk basePath visits st)).
Proof.
  revert st. induction visits as [|v visits IH]; intros st H; [exact H|].
  apply IH, process_event_keeps, H.
Qed.

Lemma event_loop_keeps snk buf readLength p st :
  Forall Q (out st) ->
  Forall Q (out (fst (event_loop (process_event snk basePath)
                        buf readLength p st))).
Proof.
  intros H.
  destruct (event_loop_as_fold (process_event snk basePath) buf readLength
              p st []) as [-> _].
  apply process_events_keeps, H.
Qed.

Lemma daemon_loop_keeps snk fd rs :
  forall buffer st,
    Forall Q (out st) ->
    Forall Q (out (fst (daemon_loop snk fd basePath buffer rs st))).
Proof.
  induction rs as [|r rs IH]; intros buffer st H.
  - cbn. repeat (apply Forall_app; split); try exact H;
      repeat constructor; apply Q_loop_call; exact I.
  - assert (H2 : Forall Q (out (emit (ReadQueue fd)
                   (emit (Printf (line "Waiting for ievent...")) st)))).
    { cbn. repeat (apply Forall_app; split); try exact H;
        repeat constructor; apply Q_loop_call; exact I. }
    destruct r as [|data]; cbn [daemon_loop].
    + cbn. repeat (apply Forall_app; split); try exact H;
        repeat constructor; apply Q_loop_call; exact I.
    + destruct (read_into buffer data) as [buffer' readLength].
      pose proof (event_loop_keeps snk buffer' readLength 0 _ H2) as H3.
      destruct (event_loop _ buffer' readLength 0 _) as [st' [c|c]];
        cbn [fst] in H3.
      * apply IH, H3.
      * exact H3.
Qed.

End LoopInvariants.

(* How the daemon loop can end. *)
Lemma daemon_loop_outcome snk fd basePath rs :
  forall buffer st,
    let o := snd (daemon_loop snk fd basePath buffer rs st) in
    o = Blocked \/ o = Exited EXT_ERR_READ_INOTIFY \/ o = Undefined.
Proof.
  induction rs as [|r rs IH]; intros buffer st; cbn zeta.
  - left. reflexivity.
  - destruct r as [|data]; cbn [daemon_loop].
    + right. left. reflexivity.
    + destruct (read_into buffer data) as [buffer' readLength].
      destruct (event_loop _ buffer' readLength 0 _) as [st' [c|c]].
      * apply IH.
      * right. right. reflexivity.
Qed.

(* Every call in a run of [main] is one of the start-up or a call of the
   daemon loop. *)
Lemma main_calls (Q : io -> Prop) (argv : list string) (w : World) :
  (forall e, is_acquire e = true -> Q e) ->
  (forall sig, Q (SignalInstall sig)) ->
  (forall e, (forall basePath,
                display_name (nth 1 argv EmptyString) = Some basePath ->
                loop_call basePath e) -> Q e) ->
  Forall Q (fst (main argv w)).
Proof.
  intros Hacq Hsig Hloop.
  assert (Hpe : forall s, Q (Eprintf s)).
  { intros s. apply Hloop. intros; exact I. }
  unfold main.
  destruct (Z.of_nat (List.length argv) <? 2); [repeat constructor; apply Hpe|].
  destruct (notify_init_ok w); cbn [negb fst];
    [|repeat constructor; (apply Hpe || (apply Hacq; reflexivity))].
  destruct (inotify_init_fd w =? -1); cbn [fst];
    [repeat constructor; (apply Hpe || (apply Hacq; reflexivity))|].
  destruct (add_watch_wd w =? -1); cbn [fst];
    [repeat constructor; (apply Hpe || (apply Hacq; reflexivity))|].
  destruct (display_name (nth 1 argv EmptyString)) as [basePath|] eqn:Hd;
    cbn [fst].
  2: { repeat constructor; try apply Hpe; try apply Hsig;
       apply Hacq; reflexivity. }
  match goal with
  | |- context [daemon_loop ?snk ?fd ?bp ?buf ?rs ?st] =>
      pose proof (daemon_loop_keeps bp Q
                    ltac:(intros e He; apply Hloop; intros bp' [= <-]; exact He)
                    snk fd rs buf st) as H;
      destruct (daemon_loop snk fd bp buf rs st) as [st' o]
  end.
  cbn [fst] in *. apply H. cbn [out].
  repeat constructor; try apply Hsig; apply Hacq; reflexivity.
Qed.

(* After a successful start-up [main] is the daemon loop, entered once
   with the display name of [argv[1]]. *)
Lemma main_enters_loop (argv : list string) (w : World) :
  (2 <= List.length argv)%nat ->
  notify_init_ok w = true ->
  inotify_init_fd w <> -1 ->
  add_watch_wd w <> -1 ->
  exists basePath,
    display_name (nth 1 argv EmptyString) = Some basePath /\
    main argv w =
      (out (fst (daemon_loop (sink w) (inotify_init_fd w) basePath
                   (initial_buffer w) (reads w)
                   {| out := startup_trace (inotify_init_fd w)
                               (nth 1 argv EmptyString);
                      requested := 0 |})),
       snd (daemon_loop (sink w) (inotify_init_fd w) basePath
              (initial_buffer w) (reads w)
              {| out := startup_trace (inotify_init_fd w)
                          (nth 1 argv EmptyString);
                 requested := 0 |})).
Proof.
  intros Hargc Hn Hq Hw.
  destruct (display_name_some (nth 1 argv EmptyString)) as [basePath Hd].
  exists basePath. split; [exact Hd|].
  unfold main.
  destruct (Z.ltb_spec (Z.of_nat (List.length argv)) 2); [lia|].
  rewrite Hn. cbn [negb].
  destruct (Z.eqb_spec (inotify_init_fd w) (-1)); [contradiction|].
  destruct (Z.eqb_spec (add_watch_wd w) (-1)); [contradiction|].
  rewrite Hd. unfold startup_trace. cbn [app].
  destruct (daemon_loop _ _ _ _ _ _). reflexivity.
Qed.

(** C7: the display name is the final path segment.  For a path that ends
    in a non-empty segment after a ['/'] it is that segment, for a path
    without ['/'] it is the whole path; [/a/b/c] gives [c] and [c] gives
    [c].  It is what [basePath] denotes when the daemon loop is entered,
    and every notification any run of [main] requests carries it as its
    title. *)
Theorem display_name_is_final_segment :
  (forall pre seg : string,
     free_of NUL (String.append pre (String.append "/" seg)) = true ->
     free_of slash seg = true ->
     seg <> EmptyString ->
     display_name (String.append pre (String.append "/" seg)) = Some seg) /\
  (forall path : string,
     free_of NUL path = true -> free_of slash path = true ->
     display_name path = Some path) /\
  display_name "/a/b/c" = Some "c" /\
  display_name "c" = Some "c" /\
  (forall (argv : list string) (w : World),
     Forall (fun e => forall summary body icon,
                e = NotificationNew summary body icon ->
                display_name (nth 1 argv EmptyString) = Some summary)
       (fst (main argv w))).
Proof.
  split; [exact display_name_last_segment|].
  split; [exact display_name_no_slash|].
  split; [reflexivity|]. split; [reflexivity|].
  intros argv w. apply main_calls.
  - intros [] He; try discriminate He; intros ? ? ? [=].
  - intros sig ? ? ? [=].
  - intros e He summary body icon ->.
    destruct (display_name_some (nth 1 argv EmptyString)) as [basePath Hd].
    specialize (He basePath Hd). cbn in He. subst. exact Hd.
Qed.

(* What the program does for a path that ends in ['/']: the last
   non-empty segment. *)
Example display_name_trailing_separator :
  display_name "/a/b/" = Some "b" /\ display_name "a//bc//" = Some "bc".
Proof. split; reflexivity. Qed.

Lemma display_name_is_final_segment_witness :
  display_name (String.append "/a/b" (String.append "/" "c")) = Some "c".
Proof.
  apply (proj1 display_name_is_final_segment "/a/b" "c").
  - reflexivity.
  - reflexivity.
  - discriminate.
Defined.

(** C9: with no path argument ([argc < 2]) [main] prints the usage line on
    the error stream and exits with the usage status; that is the whole
    run, so nothing is initialised or acquired; and the usage status
    differs from every other status. *)
Theorem too_few_arguments (argv : list string) (w : World) :
  (List.length argv < 2)%nat ->
  main argv w =
    ([Eprintf (line "USAGE: rolexhound PATH")], Exited EXT_ERR_TOO_FEW_ARGS) /\
  filter is_acquire (fst (main argv w)) = [] /\
  NoDup exit_statuses.
Proof.
  intros Hargc.
  assert (Hmain : main argv w =
            ([Eprintf (line "USAGE: rolexhound PATH")],
             Exited EXT_ERR_TOO_FEW_ARGS)).
  { unfold main.
    destruct (Z.ltb_spec (Z.of_nat (List.length argv)) 2); [reflexivity|lia]. }
  rewrite Hmain. split; [reflexivity|]. split; [reflexivity|].
  unfold exit_statuses.
  repeat constructor; cbn; intuition discriminate.
Qed.

Lemma too_few_arguments_witness :
  main ["rolexhound"] quiet_world =
    ([Eprintf (line "USAGE: rolexhound PATH")], Exited EXT_ERR_TOO_FEW_ARGS) /\
  filter is_acquire (fst (main ["rolexhound"] quiet_world)) = [] /\
  NoDup exit_statuses.
Proof.
  apply (too_few_arguments ["rolexhound"] quiet_world). simpl. lia.
Defined.

(** ** [basePath] is never [NULL] *)

Lemma strtok_keeps_length s delim st :
  List.length (mem (snd (strtok s delim st))) = List.length (mem st).
Proof.
  unfold strtok.
  destruct (is_nul (char_at (mem st) _)); [reflexivity|].
  destruct (is_nul (char_at (mem st) _)); cbn [snd mem];
    [reflexivity|apply length_store].
Qed.

(* [basePath] and [token] stay inside the block, whose size never
   changes. *)
Lemma last_token_loop_within (token basePath : option nat) (st : strtok_state) :
  (forall t, token = Some t -> (t < List.length (mem st))%nat) ->
  (forall b, basePath = Some b -> (b < List.length (mem st))%nat) ->
  List.length (mem (snd (last_token_loop token basePath st))) =
    List.length (mem st) /\
  forall r, fst (last_token_loop token basePath st) = Some r ->
            (r < List.length (mem st))%nat.
Proof.
  funelim (last_token_loop token basePath st); intros Htok Hbase.
  - split; [reflexivity|exact Hbase].
  - match goal with
    | IH : _ -> _ -> _ /\ _ |- _ => rename IH into IHloop
    end.
    match goal with
    | E : strtok None path_delim st = _ |- _ => rename E into Hcall
    end.
    pose proof (strtok_keeps_length None path_delim st) as Hlen.
    rewrite Hcall in Hlen. cbn [snd] in Hlen.
    destruct IHloop as [IHlen IHr].
    + intros t' ->. pose proof (strtok_progress _ _ _ _ Hcall). lia.
    + intros b [= <-]. rewrite Hlen. apply Htok. reflexivity.
    + split; [congruence|].
      intros r Hr. rewrite <- Hlen. apply IHr, Hr.
Qed.

Lemma tokenize_within (argv1 : string) :
  exists p, fst (tokenize argv1) = Some p /\
            (p < List.length (strcpy_new argv1))%nat /\
            List.length (mem (snd (tokenize argv1))) =
              List.length (strcpy_new argv1).
Proof.
  pose proof (tokenize_not_null argv1) as Hnn.
  rewrite tokenize_from_start in *. unfold tokenize_from in *.
  set (st0 := {| mem := [] ++ strcpy_new argv1; olds := 0 |}) in *.
  pose proof (strtok_keeps_length None path_delim st0) as Hlen.
  destruct (strtok None path_delim st0) as [token st] eqn:E.
  cbn [fst snd] in *.
  assert (Hblock : (0 < List.length (mem st))%nat).
  { rewrite Hlen. unfold st0, strcpy_new. cbn [mem app].
    rewrite length_app. cbn [List.length]. lia. }
  destruct (last_token_loop_within token (Some 0%nat) st) as [Hl Hr].
  - intros t ->. apply strtok_progress in E. lia.
  - intros b [= <-]. exact Hblock.
  - destruct (fst (last_token_loop token (Some 0%nat) st)) as [p|] eqn:Hp;
      [|congruence].
    exists p. split; [reflexivity|].
    unfold st0 in Hlen. cbn [mem app] in Hlen.
    split; [rewrite <- Hlen; apply Hr; reflexivity|congruence].
Qed.

(** C10: for every path argument [basePath] is non-NULL after the
    tokenisation loop, an offset inside the allocated copy (the copy
    itself or a token in it); so no run of [main] takes the branch of the
    base-path error or exits with its status.  A path of ['/'] only, such
    as [/], leaves the copy unmodified and its whole text as the display
    name, and [main] goes on into the daemon loop with that title. *)
Theorem base_path_never_null :
  (forall argv1 : string,
     exists p, fst (tokenize argv1) = Some p /\
               (p < List.length (strcpy_new argv1))%nat) /\
  (forall (argv : list string) (w : World),
     snd (main argv w) <> Exited EXT_ERR_BASE_PATH_NULL) /\
  (forall path : string,
     only_slashes path = true ->
     mem (snd (tokenize path)) = strcpy_new path /\
     display_name path = Some path) /\
  display_name "/" = Some "/" /\
  (forall (prog : string) (w : World),
     notify_init_ok w = true ->
     inotify_init_fd w <> -1 ->
     add_watch_wd w <> -1 ->
     main [prog; "/"] w =
       (out (fst (daemon_loop (sink w) (inotify_init_fd w) "/"
                    (initial_buffer w) (reads w)
                    {| out := startup_trace (inotify_init_fd w) "/";
                       requested := 0 |})),
        snd (daemon_loop (sink w) (inotify_init_fd w) "/"
               (initial_buffer w) (reads w)
               {| out := startup_trace (inotify_init_fd w) "/";
                  requested := 0 |}))).
Proof.
  split; [|split; [|split; [|split]]].
  - intros argv1. destruct (tokenize_within argv1) as (p & Hp & Hlt & _).
    exists p. split; assumption.
  - intros argv w. unfold main.
    destruct (Z.of_nat (List.length argv) <? 2); [discriminate|].
    destruct (notify_init_ok w); cbn [negb snd]; [|discriminate].
    destruct (inotify_init_fd w =? -1); [discriminate|].
    destruct (add_watch_wd w =? -1); [discriminate|].
    destruct (display_name_some (nth 1 argv EmptyString)) as [basePath ->].
    match goal with
    | |- context [daemon_loop ?snk ?fd ?bp ?buf ?rs ?st] =>
        pose proof (daemon_loop_outcome snk fd bp rs buf st) as H;
        destruct (daemon_loop snk fd bp buf rs st) as [st' o]
    end.
    cbn in *. destruct H as [-> | [-> | ->]]; discriminate.
  - intros path H. split; [|apply display_name_only_slashes, H].
    rewrite tokenize_from_start. unfold strcpy_new.
    assert (Hall : Forall (eq slash) (list_ascii_of_string path)).
    { apply Forall_forall. intros c Hc. unfold only_slashes in H.
      rewrite forallb_forall in H. apply Ascii.eqb_eq, H, Hc. }
    rewrite c_chars_no_nul
      by (eapply Forall_impl; [|exact Hall]; intros c <-; reflexivity).
    rewrite tokenize_from_slashes by exact Hall. reflexivity.
  - reflexivity.
  - intros prog w Hn Hq Hw.
    destruct (main_enters_loop [prog; "/"] w) as (basePath & Hd & Hmain);
      try assumption; [simpl; lia|].
    cbn [nth] in Hd, Hmain.
    change (display_name "/") with (Some "/") in Hd.
    injection Hd as <-. exact Hmain.
Qed.

Lemma base_path_never_null_witness :
  mem (snd (tokenize "///")) = strcpy_new "///" /\
  display_name "///" = Some "///".
Proof.
  apply (proj1 (proj2 (proj2 base_path_never_null)) "///"). reflexivity.
Defined.

(** ** Reads of whole records, and the read that fails *)

Lemma read_into_whole (buffer data : list byte) :
  List.length buffer = sizeof_buffer ->
  (List.length data <= sizeof_buffer)%nat ->
  read_into buffer data =
    (data ++ skipn (List.length data) buffer, Z.of_nat (List.length data)) /\
  List.length (data ++ skipn (List.length data) buffer) = sizeof_buffer.
Proof.
  intros Hb Hd. unfold read_into. rewrite Hb, Nat.min_id.
  rewrite firstn_all2 by exact Hd. split; [reflexivity|].
  rewrite length_app, length_skipn. lia.
Qed.

Lemma daemon_loop_whole_reads snk fd basePath batches :
  Forall fits batches ->
  forall buffer rs st,
    List.length buffer = sizeof_buffer ->
    exists buffer',
      List.length buffer' = sizeof_buffer /\
      daemon_loop snk fd basePath buffer (whole_reads batches ++ rs) st =
      daemon_loop snk fd basePath buffer' rs
        (fold_left (serve snk basePath fd) batches st).
Proof.
  induction 1 as [|evs batches [Hwf Hfit] Hrest IH]; intros buffer rs st Hb.
  - exists buffer. split; [exact Hb|reflexivity].
  - cbn [whole_reads map app daemon_loop]. fold (whole_reads batches).
    destruct (read_into_whole buffer (encode_events evs) Hb Hfit) as [-> Hb'].
    pose proof (event_loop_encoded (process_event snk basePath) evs Hwf []
                  (skipn (List.length (encode_events evs)) buffer)
                  (waiting fd st)) as Hloop.
    cbn [app List.length Z.of_nat] in Hloop. rewrite Z.add_0_l in Hloop.
    rewrite length_encode_events. unfold waiting in Hloop.
    rewrite Hloop.
    destruct (IH _ rs (serve snk basePath fd st evs) Hb') as (buffer' & Hl & Hd).
    exists buffer'. split; [exact Hl|]. exact Hd.
Qed.

Lemma filter_none {A : Type} (f : A -> bool) (l : list A) :
  Forall (fun x => f x = false) l -> filter f l = [].
Proof.
  induction 1 as [|x l Hx Hl IH]; simpl; [reflexivity|].
  rewrite Hx. exact IH.
Qed.

(* [main] itself never calls the teardown. *)
Lemma main_never_releases (argv : list string) (w : World) :
  filter is_release (fst (main argv w)) = [].
Proof.
  apply filter_none, main_calls.
  - intros [] He; try discriminate He; reflexivity.
  - reflexivity.
  - intros e He.
    destruct (display_name_some (nth 1 argv EmptyString)) as [basePath Hd].
    specialize (He basePath Hd). destruct e; try reflexivity; contradiction.
Qed.

Lemma length_initial_buffer (w : World) :
  List.length (initial_buffer w) = sizeof_buffer.
Proof.
  unfold initial_buffer. rewrite length_firstn, length_app, repeat_length. lia.
Qed.

(** C5, as stated, fails.  A run whose first read fails: the process
    reports the error and exits with the read-error status, and its trace
    holds no removal of the watch, no close of the queue and no
    [notify_uninit]. *)
Lemma read_failure_skips_cleanup :
  main ["rolexhound"; "f"] failing_world =
    (startup_trace 3 "f" ++
       [Printf (line "Waiting for ievent..."); ReadQueue 3;
        Eprintf (line "Error reading from inotify event!")],
     Exited EXT_ERR_READ_INOTIFY) /\
  existsb is_release (fst (main ["rolexhound"; "f"] failing_world)) = false.
Proof.
  split; reflexivity.
Qed.

(** C5, amended: when the blocking read fails, after any number of reads
    of whole records, the process prints the read-error line on the error
    stream right after that read and exits with the distinct read-error
    status; it does so directly, without a cleanup: no run of [main]
    removes the watch, closes the queue or shuts libnotify down. *)
Theorem read_failure_exits (argv : list string) (w : World)
    (batches : list (list inotify_event)) (rest : list read_result) :
  (2 <= List.length argv)%nat ->
  notify_init_ok w = true ->
  inotify_init_fd w <> -1 ->
  add_watch_wd w <> -1 ->
  Forall fits batches ->
  reads w = whole_reads batches ++ ReadError :: rest ->
  snd (main argv w) = Exited EXT_ERR_READ_INOTIFY /\
  (exists t, fst (main argv w) =
             t ++ [ReadQueue (inotify_init_fd w);
                   Eprintf (line "Error reading from inotify event!")]) /\
  filter is_release (fst (main argv w)) = [] /\
  NoDup exit_statuses.
Proof.
  intros Hargc Hn Hq Hw Hfits Hreads.
  split; [|split; [|split; [apply main_never_releases|]]].
  3: { unfold exit_statuses. repeat constructor; cbn; intuition discriminate. }
  all: destruct (main_enters_loop argv w Hargc Hn Hq Hw)
         as (basePath & _ & ->);
       rewrite Hreads;
       match goal with
       | |- context [daemon_loop ?snk ?fd ?bp ?buf _ ?st] =>
           destruct (daemon_loop_whole_reads snk fd bp batches Hfits buf
                       (ReadError :: rest) st (length_initial_buffer w))
             as (buffer' & _ & ->)
       end; cbn [daemon_loop fst snd].
  - reflexivity.
  - unfold emit. cbn [out].
    rewrite <- (app_assoc _ [ReadQueue _] [Eprintf _]). cbn [app].
    eexists. reflexivity.
Qed.

Lemma read_failure_exits_witness :
  snd (main ["rolexhound"; "f"]
         {| notify_init_ok := true; inotify_init_fd := 3; add_watch_wd := 1;
            stack_bytes := [];
            reads := whole_reads [two_events] ++ [ReadError];
            sink := fun _ => Shown |}) = Exited EXT_ERR_READ_INOTIFY.
Proof.
  refine (proj1 (read_failure_exits ["rolexhound"; "f"] _ [two_events] []
                   _ _ _ _ _ _)).
  - simpl. lia.
  - reflexivity.
  - simpl. lia.
  - simpl. lia.
  - constructor; [|constructor]. split.
    + unfold two_events. repeat constructor; vm_compute; congruence.
    + apply Nat.leb_le. vm_compute. reflexivity.
  - reflexivity.
Defined.

(** ** Failures of the notification sink *)

(* What the body adds to the trace for a record with a message. *)
Lemma process_event_out snk basePath watchEvent m st notificationMessage :
  select_message m = Some notificationMessage ->
  out (process_event snk basePath watchEvent m st) =
    out st ++
    NotificationNew basePath notificationMessage "dialog-information" ::
    match snk (requested st) with
    | HandleNull => [Eprintf (line "Got a null notify handle!")]
    | ShowFailed => [NotificationSetUrgency NOTIFY_URGENCY_CRITICAL;
                     NotificationShow false]
    | Shown => [NotificationSetUrgency NOTIFY_URGENCY_CRITICAL;
                NotificationShow true]
    end.
Proof.
  intros Hm. unfold process_event. rewrite Hm.
  destruct (snk (requested st)); unfold emit; cbn [out];
    rewrite <- ?app_assoc; reflexivity.
Qed.

Lemma process_event_requests snk basePath watchEvent m st :
  filter is_notification_new (out (process_event snk basePath watchEvent m st)) =
    filter is_notification_new (out st) ++
    requests_for basePath [(watchEvent, m)].
Proof.
  unfold requests_for. cbn [flat_map snd]. rewrite app_nil_r.
  destruct (select_message m) as [msg|] eqn:Hm.
  - rewrite (process_event_out _ _ _ _ _ _ Hm), filter_app.
    destruct (snk (requested st)); reflexivity.
  - unfold process_event. rewrite Hm, app_nil_r. reflexivity.
Qed.

Lemma process_events_requests snk basePath visits :
  forall st,
    filter is_notification_new (out (process_events snk basePath visits st)) =
      filter is_notification_new (out st) ++ requests_for basePath visits.
Proof.
  induction visits as [|[p m] visits IH]; intros st.
  - cbn. rewrite app_nil_r. reflexivity.
  - cbn [process_events fold_left fst snd].
    change (fold_left _ visits ?s) with (process_events snk basePath visits s).
    rewrite IH, process_event_requests, <- app_assoc.
    unfold requests_for. cbn [flat_map]. rewrite app_nil_r. reflexivity.
Qed.

(* The daemon loop under two sinks: same end, same requests. *)
Lemma daemon_loop_any_sink snk1 snk2 fd basePath rs :
  forall buffer st1 st2,
    filter is_notification_new (out st1) =
      filter is_notification_new (out st2) ->
    snd (daemon_loop snk1 fd basePath buffer rs st1) =
      snd (daemon_loop snk2 fd basePath buffer rs st2) /\
    filter is_notification_new
        (out (fst (daemon_loop snk1 fd basePath buffer rs st1))) =
      filter is_notification_new
        (out (fst (daemon_loop snk2 fd basePath buffer rs st2))).
Proof.
  induction rs as [|r rs IH]; intros buffer st1 st2 Hst.
  - cbn. rewrite !filter_app, Hst. split; reflexivity.
  - destruct r as [|data]; cbn [daemon_loop].
    + cbn. rewrite !filter_app, Hst. split; reflexivity.
    + destruct (read_into buffer data) as [buffer' readLength].
      destruct (event_loop_as_fold (process_event snk1 basePath) buffer'
                  readLength 0
                  (emit (ReadQueue fd)
                     (emit (Printf (line "Waiting for ievent...")) st1)) [])
        as [-> _].
      destruct (event_loop_as_fold (process_event snk2 basePath) buffer'
                  readLength 0
                  (emit (ReadQueue fd)
                     (emit (Printf (line "Waiting for ievent...")) st2)) [])
        as [-> _].
      repeat match goal with
      | |- context [fold_left
                      (fun s v => process_event ?k basePath (fst v) (snd v) s)
                      ?l ?s0] =>
          change (fold_left
                    (fun s v => process_event k basePath (fst v) (snd v) s)
                    l s0)
            with (process_events k basePath l s0)
      end.
      destruct (snd (event_loop record_visit buffer' readLength 0 [])) as [c|c].
      * apply IH. rewrite !process_events_requests. f_equal.
        cbn. rewrite !filter_app, Hst. reflexivity.
      * cbn [fst snd]. split; [reflexivity|].
        rewrite !process_events_requests. f_equal.
        cbn. rewrite !filter_app, Hst. reflexivity.
Qed.

(** C8, as stated, fails on the report.  A run in which the notification
    of a created file fails to show: the failed show is in the trace and
    nothing at all is written to the error stream. *)
Lemma failed_show_is_not_reported :
  fst (main ["rolexhound"; "f"] unshown_world) =
    startup_trace 3 "f" ++
    [Printf (line "Waiting for ievent..."); ReadQueue 3;
     NotificationNew "f" (line "File created.") "dialog-information";
     NotificationSetUrgency NOTIFY_URGENCY_CRITICAL;
     NotificationShow false;
     Printf (line "Waiting for ievent..."); ReadQueue 3] /\
  filter is_eprintf (fst (main ["rolexhound"; "f"] unshown_world)) = [].
Proof.
  split; vm_compute; reflexivity.
Qed.

(** C8, amended: a null notification handle is reported on the error
    stream, while a notification that fails to show is not reported, the
    result of the show call being dropped.  Neither aborts the watch loop:
    how a run ends and which notifications it requests, in which order, is
    the same whatever the sink answers, so the records that follow in the
    buffer and the buffers that follow are processed all the same. *)
Theorem sink_failure_never_aborts :
  (forall snk basePath watchEvent m st notificationMessage,
     select_message m = Some notificationMessage ->
     out (process_event snk basePath watchEvent m st) =
       out st ++
       NotificationNew basePath notificationMessage "dialog-information" ::
       match snk (requested st) with
       | HandleNull => [Eprintf (line "Got a null notify handle!")]
       | ShowFailed => [NotificationSetUrgency NOTIFY_URGENCY_CRITICAL;
                        NotificationShow false]
       | Shown => [NotificationSetUrgency NOTIFY_URGENCY_CRITICAL;
                   NotificationShow true]
       end) /\
  (forall snk basePath buf readLength st,
     snd (event_loop (process_event snk basePath) buf readLength 0 st) =
       snd (event_loop record_visit buf readLength 0 []) /\
     filter is_notification_new
         (out (fst (event_loop (process_event snk basePath)
                      buf readLength 0 st))) =
       filter is_notification_new (out st) ++
       requests_for basePath
         (fst (event_loop record_visit buf readLength 0 []))) /\
  (forall (argv : list string) (w : World) (snk : nat -> sink_result),
     snd (main argv (with_sink w snk)) = snd (main argv w) /\
     filter is_notification_new (fst (main argv (with_sink w snk))) =
       filter is_notification_new (fst (main argv w))).
Proof.
  split; [exact process_event_out|]. split.
  - intros snk basePath buf readLength st.
    destruct (event_loop_as_fold (process_event snk basePath) buf readLength
                0 st []) as [-> _].
    cbn [fst snd]. split; [reflexivity|].
    apply process_events_requests.
  - intros argv w snk. unfold main.
    change (notify_init_ok (with_sink w snk)) with (notify_init_ok w).
    change (inotify_init_fd (with_sink w snk)) with (inotify_init_fd w).
    change (add_watch_wd (with_sink w snk)) with (add_watch_wd w).
    change (initial_buffer (with_sink w snk)) with (initial_buffer w).
    change (reads (with_sink w snk)) with (reads w).
    change (sink (with_sink w snk)) with snk.
    destruct (Z.of_nat (List.length argv) <? 2); [split; reflexivity|].
    destruct (notify_init_ok w); cbn [negb]; [|split; reflexivity].
    destruct (inotify_init_fd w =? -1); [split; reflexivity|].
    destruct (add_watch_wd w =? -1); [split; reflexivity|].
    destruct (display_name (nth 1 argv EmptyString)) as [basePath|];
      [|split; reflexivity].
    match goal with
    | |- context [daemon_loop snk ?fd ?bp ?buf ?rs ?st] =>
        pose proof (daemon_loop_any_sink snk (sink w) fd bp rs buf st st
                      eq_refl) as H;
        destruct (daemon_loop snk fd bp buf rs st) as [sta oa];
        destruct (daemon_loop (sink w) fd bp buf rs st) as [stb ob]
    end.
    exact H.
Qed.

Lemma sink_failure_never_aborts_witness :
  out (process_event (fun _ => HandleNull) "f" 0 IN_CREATE
         {| out := []; requested := 0 |}) =
    [NotificationNew "f" (line "File created.") "dialog-information";
     Eprintf (line "Got a null notify handle!")].
Proof.
  apply (proj1 sink_failure_never_aborts (fun _ => HandleNull) "f" 0 IN_CREATE
           {| out := []; requested := 0 |} (line "File created.")).
  reflexivity.
Defined.

(** ** Termination requests *)

Lemma run_app (s1 s2 : list action) (p : process) :
  run (s1 ++ s2) p = run s2 (run s1 p).
Proof. apply fold_left_app. Qed.

(* Once the process is gone nothing is executed any more. *)
Lemma run_gone (schedule : list action) (p : process) :
  gone p = true -> run schedule p = p.
Proof.
  intros Hg. induction schedule as [|a schedule IH]; [reflexivity|].
  cbn [run fold_left]. unfold perform at 2. rewrite Hg. exact IH.
Qed.

Lemma run_after_exit (schedule : list action) (p : process) (status : Z) :
  exit_status p = Some status -> run schedule p = p.
Proof.
  intros He. apply run_gone. unfold gone. rewrite He. reflexivity.
Qed.

(* The loop of [main] releases nothing. *)
Lemma main_loop_call_no_release (fd : Z) (e : io) :
  main_loop_call fd e = true ->
  is_release e = false /\ is_rm_watch e = false /\
  is_rm_watch_ok e = false /\ is_close e = false.
Proof.
  destruct e; cbn; intros H; try discriminate; repeat split; reflexivity.
Qed.

(* A successful removal needs a live watch and leaves none. *)
Lemma perform_removals (p : process) (a : action) :
  (removals (log (perform p a)) + watch_removable (res (perform p a)) <=
   removals (log p) + watch_removable (res p))%nat.
Proof.
  unfold perform, main_statement.
  destruct (gone p); [lia|].
  destruct a as [sig| |e| |].
  - destruct (installed sig); [destruct (blocked sig (frames p))|
      destruct (default_terminates sig)]; cbn [log res]; lia.
  - destruct (frames p) as [|f outer].
    + unfold removals.
      destruct (at_main p); cbn [log res]; rewrite ?filter_app, ?length_app;
        cbn [filter is_rm_watch_ok List.length]; lia.
    + unfold sig_shutdown_handler, removals, watch_removable, inotify_rm_watch.
      destruct (pc f);
        destruct (queue_open (res p) && watch_live (res p)) eqn:E;
        destruct (closeStatus f =? -1);
        cbn [log res queue_open watch_live libnotify_up close_queue
             notify_uninit andb];
        rewrite ?filter_app, ?length_app;
        cbn [filter is_rm_watch_ok Z.eqb List.length andb];
        rewrite ?E; lia.
  - destruct (frames p); [|lia]. destruct (at_main p); try lia.
    destruct (main_loop_call (IeventQueue p) e) eqn:He; [|lia].
    destruct (main_loop_call_no_release _ _ He) as (_ & _ & Hno & _).
    unfold removals. cbn [log res]. rewrite filter_app, length_app.
    cbn [filter]. rewrite Hno. cbn [List.length]. lia.
  - unfold removals, watch_removable, drop_watch.
    cbn [log res queue_open watch_live]. rewrite andb_false_r.
    destruct (queue_open (res p) && watch_live (res p)); lia.
  - destruct (frames p); [|lia]. destruct (at_main p); cbn [log res]; lia.
Qed.

Lemma run_removals (schedule : list action) :
  forall p,
    (removals (log (run schedule p)) + watch_removable (res (run schedule p)) <=
     removals (log p) + watch_removable (res p))%nat.
Proof.
  induction schedule as [|a schedule IH]; intros p; [cbn; lia|].
  cbn [run fold_left]. etransitivity; [apply IH|apply perform_removals].
Qed.

Lemma frame_ok_released_more (r' r : resources) (f : frame) :
  released_more r' r -> frame_ok r f -> frame_ok r' f.
Proof.
  unfold released_more, frame_ok. intros (Hq & Hw & Hn).
  destruct (pc f); tauto.
Qed.

(* A statement of the handler keeps [exit_ok], given what it does to the
   innermost activation. *)
Lemma handler_step_exit_ok (p : process) (f : frame) (outer : list frame)
    (pc' : handler_pc) (cs : Z) (l : list io) (r : resources) :
  exit_ok p -> frames p = f :: outer ->
  released_more r (res p) ->
  frame_ok r {| signum := signum f; pc := pc'; closeStatus := cs |} ->
  exit_ok
    {| IeventQueue := IeventQueue p; IeventDescriptor := IeventDescriptor p;
       res := r; at_main := at_main p;
       frames := {| signum := signum f; pc := pc'; closeStatus := cs |} :: outer;
       exit_status := None; killed_by := None; log := log p ++ l |}.
Proof.
  intros (Hframes & Hidle & Hleave & Hexit) Hf Hr Hok.
  split; [|split; [|split]]; cbn [frames res exit_status log at_main].
  - constructor; [exact Hok|].
    rewrite Hf in Hframes. apply Forall_inv_tail in Hframes.
    eapply Forall_impl; [|exact Hframes].
    intros g. apply frame_ok_released_more, Hr.
  - discriminate.
  - intros Hm. apply in_or_app. left. apply Hleave, Hm.
  - discriminate.
Qed.

Lemma released_more_refl (r : resources) : released_more r r.
Proof. unfold released_more. tauto. Qed.

Lemma perform_exit_ok (p : process) (a : action) :
  exit_ok p -> exit_ok (perform p a).
Proof.
  intros Hp. pose proof Hp as (Hframes & Hidle & Hleave & Hexit).
  unfold perform, main_statement.
  destruct (gone p) eqn:Hg; [exact Hp|].
  destruct a as [sig| |e| |].
  - destruct (installed sig).
    + destruct (blocked sig (frames p)); [exact Hp|].
      split; [|split; [|split]]; cbn [frames res exit_status log at_main];
        [constructor; [exact I|exact Hframes]|discriminate|exact Hleave
        |discriminate].
    + destruct (default_terminates sig); [|exact Hp].
      split; [|split; [|split]]; cbn [frames res exit_status log at_main];
        [exact Hframes|exact Hidle|exact Hleave|discriminate].
  - destruct (frames p) as [|f outer] eqn:Hf.
    + destruct (at_main p) eqn:Hm; [exact Hp| |].
      * split; [|split; [|split]]; cbn [frames res exit_status log at_main].
        -- constructor.
        -- intros _. rewrite filter_app, (Hidle eq_refl). reflexivity.
        -- intros _. apply in_or_app. right. left. reflexivity.
        -- discriminate.
      * split; [|split; [|split]]; cbn [frames res exit_status log at_main].
        -- constructor.
        -- intros _. apply Hidle. reflexivity.
        -- exact Hleave.
        -- intros status [= <-]. right. repeat split.
    + pose proof (Forall_inv Hframes) as Hf0. unfold frame_ok in Hf0.
      unfold sig_shutdown_handler. destruct (pc f) eqn:Hpc.
      * apply handler_step_exit_ok;
          [exact Hp|exact Hf|apply released_more_refl|exact I].
      * unfold inotify_rm_watch.
        destruct (queue_open (res p) && watch_live (res p)) eqn:E.
        -- apply handler_step_exit_ok; [exact Hp|exact Hf| |exact I].
           apply andb_true_iff in E. destruct E as [E1 E2].
           unfold released_more. cbn [queue_open watch_live libnotify_up].
           repeat split; congruence.
        -- apply handler_step_exit_ok;
             [exact Hp|exact Hf|apply released_more_refl|exact I].
      * apply handler_step_exit_ok;
          [exact Hp|exact Hf|apply released_more_refl|exact I].
      * apply handler_step_exit_ok; [exact Hp|exact Hf| |].
        -- unfold released_more. cbn. tauto.
        -- unfold frame_ok. cbn. split; reflexivity.
      * apply handler_step_exit_ok; [exact Hp|exact Hf| |].
        -- unfold released_more. cbn. tauto.
        -- unfold frame_ok. cbn. tauto.
      * split; [|split; [|split]]; cbn [frames res exit_status log at_main].
        -- exact Hframes.
        -- discriminate.
        -- exact Hleave.
        -- intros status [= <-]. left. split; [reflexivity|].
           exists f, outer. split; [reflexivity|exact Hpc].
  - destruct (frames p) as [|f outer] eqn:Hf; [|exact Hp].
    destruct (at_main p) eqn:Hm; try exact Hp.
    destruct (main_loop_call (IeventQueue p) e) eqn:He; [|exact Hp].
    destruct (main_loop_call_no_release _ _ He) as (Hno & _).
    split; [|split; [|split]]; cbn [frames res exit_status log at_main].
    + constructor.
    + intros _. rewrite filter_app, (Hidle eq_refl). cbn [filter].
      rewrite Hno. reflexivity.
    + discriminate.
    + discriminate.
  - split; [|split; [|split]]; cbn [frames res exit_status log at_main];
      [|exact Hidle|exact Hleave|discriminate].
    eapply Forall_impl; [|exact Hframes].
    intros g. apply frame_ok_released_more.
    unfold released_more, drop_watch. cbn. tauto.
  - destruct (frames p) as [|f outer] eqn:Hf; [|exact Hp].
    destruct (at_main p) eqn:Hm; try exact Hp.
    split; [|split; [|split]]; cbn [frames res exit_status log at_main];
      [constructor|intros _; apply Hidle; reflexivity|discriminate
      |discriminate].
Qed.

Lemma run_exit_ok (schedule : list action) :
  forall p, exit_ok p -> exit_ok (run schedule p).
Proof.
  induction schedule as [|a schedule IH]; intros p Hp; [exact Hp|].
  cbn [run fold_left]. apply IH, perform_exit_ok, Hp.
Qed.

Lemma active_exit_ok (fd wd : Z) : exit_ok (active fd wd).
Proof.
  split; [constructor|]. split; [reflexivity|]. split; discriminate.
Qed.

(* What an exit tells, in any run. *)
Lemma run_exit_status (schedule : list action) (fd wd status : Z) :
  exit_status (run schedule (active fd wd)) = Some status ->
  (status = EXT_SUCCESS /\
   frames (run schedule (active fd wd)) <> [] /\
   res (run schedule (active fd wd)) =
     {| queue_open := false; watch_live := false; libnotify_up := false |}) \/
  (status = EXT_ERR_READ_INOTIFY /\
   frames (run schedule (active fd wd)) = [] /\
   filter is_release (log (run schedule (active fd wd))) = [] /\
   In (Eprintf (line "Error reading from inotify event!"))
      (log (run schedule (active fd wd)))).
Proof.
  intros Hst.
  destruct (run_exit_ok schedule _ (active_exit_ok fd wd))
    as (Hframes & Hidle & Hleave & Hexit).
  destruct (Hexit status Hst)
    as [(-> & f & outer & Hf & Hpc) | (-> & Hf & Hm)].
  - left. split; [reflexivity|]. split; [rewrite Hf; discriminate|].
    rewrite Hf in Hframes. apply Forall_inv in Hframes.
    unfold frame_ok in Hframes. rewrite Hpc in Hframes.
    destruct (res (run schedule (active fd wd))) as [q wl n].
    cbn in Hframes. destruct Hframes as (-> & -> & ->). reflexivity.
  - right. split; [reflexivity|]. split; [exact Hf|].
    split; [apply Hidle, Hf|apply Hleave, Hm].
Qed.

(** C4, as stated, fails.  When the second request arrives after the first
    activation has removed the watch, the teardown is executed again from
    its start: the watch is removed a second time, which fails on the
    watch already gone and is reported; arriving after the close, the
    second activation also closes the queue descriptor a second time. *)
Lemma second_request_repeats_teardown :
  log (run interrupted_after_removal (active 3 1)) =
    [Printf exit_banner; InotifyRmWatch 3 1 0;
     Printf exit_banner; InotifyRmWatch 3 1 (-1);
     Eprintf (line "Error removing file from inotify watch!");
     CloseFd 3; NotifyUninit] /\
  List.length (filter is_rm_watch
                 (log (run interrupted_after_removal (active 3 1)))) = 2%nat /\
  log (run interrupted_after_close (active 3 1)) =
    [Printf exit_banner; InotifyRmWatch 3 1 0; CloseFd 3;
     Printf exit_banner; InotifyRmWatch 3 1 (-1);
     Eprintf (line "Error removing file from inotify watch!");
     CloseFd 3; NotifyUninit] /\
  List.length (filter is_close
                 (log (run interrupted_after_close (active 3 1)))) = 2%nat.
Proof.
  repeat split; vm_compute; reflexivity.
Qed.

(* While no signal arrives and no read fails the process stays in its
   loop; the watch is there unless the kernel dropped it. *)
Lemma run_quiet (fd wd : Z) (before : list action) :
  Forall quiet before ->
  forall live calls,
    run before (idle fd wd live calls) =
    idle fd wd (live && negb (existsb is_drop before))
      (calls ++ loop_trace fd before).
Proof.
  induction 1 as [|a before Ha Hb IH]; intros live calls.
  - cbn. rewrite andb_true_r, app_nil_r. reflexivity.
  - cbn [run fold_left existsb]. unfold loop_trace. cbn [flat_map].
    fold (loop_trace fd before).
    destruct a as [sig| |e| |]; try contradiction.
    + change (perform (idle fd wd live calls) Step)
        with (idle fd wd live calls).
      apply IH.
    + change (perform (idle fd wd live calls) (LoopCall e))
        with (if main_loop_call fd e then idle fd wd live (calls ++ [e])
              else idle fd wd live calls).
      cbn [is_drop orb].
      destruct (main_loop_call fd e);
        [rewrite app_assoc|cbn [app]]; apply IH.
    + change (perform (idle fd wd live calls) WatchDropped)
        with (idle fd wd false calls).
      cbn [is_drop orb negb app]. rewrite andb_false_r.
      rewrite <- (andb_false_l (negb (existsb is_drop before))). apply IH.
Qed.

Lemma perform_first_delivery (fd wd sig : Z) (live : bool) (calls : list io) :
  installed sig = true ->
  perform (idle fd wd live calls) (Deliver sig) =
    {| IeventQueue := fd; IeventDescriptor := wd;
       res := {| queue_open := true; watch_live := live;
                 libnotify_up := true |};
       at_main := InLoop;
       frames := [{| signum := sig; pc := AtPrintf; closeStatus := 0 |}];
       exit_status := None; killed_by := None; log := calls |}.
Proof.
  intros Hsig. unfold perform, idle.
  cbn [gone exit_status killed_by frames blocked existsb]. rewrite Hsig.
  reflexivity.
Qed.

(* The handler run from its first to its last statement. *)
Lemma handler_runs_to_exit (fd wd sig : Z) (live : bool) (calls : list io) :
  installed sig = true ->
  run (Deliver sig :: handler_run) (idle fd wd live calls) =
    {| IeventQueue := fd; IeventDescriptor := wd;
       res := {| queue_open := false; watch_live := false;
                 libnotify_up := false |};
       at_main := InLoop;
       frames := [{| signum := sig; pc := AtExit;
                     closeStatus := if live then 0 else -1 |}];
       exit_status := Some EXT_SUCCESS; killed_by := None;
       log := calls ++
              Printf exit_banner ::
              (if live
               then [InotifyRmWatch fd wd 0]
               else [InotifyRmWatch fd wd (-1);
                     Eprintf (line "Error removing file from inotify watch!")])
              ++ [CloseFd fd; NotifyUninit] |}.
Proof.
  intros Hsig. unfold run, handler_run. cbn [repeat fold_left].
  rewrite (perform_first_delivery fd wd sig live calls Hsig).
  destruct live;
    cbv [perform gone exit_status killed_by frames sig_shutdown_handler pc
         inotify_rm_watch res queue_open watch_live libnotify_up andb
         closeStatus signum IeventQueue IeventDescriptor log at_main
         close_queue notify_uninit Z.eqb Pos.eqb];
    f_equal; rewrite <- !app_assoc; reflexivity.
Qed.

(** C4, amended: the handler has no guard against a second activation.
    A termination request reaching the process in its loop, and which no
    signal interrupts, executes the teardown once, after what the loop has
    called: one removal of the watch, which succeeds, or which fails and
    is reported when the kernel has dropped the watch before; one close of
    the queue; one [notify_uninit]; and it exits with success, after which
    nothing more is executed, so that a request arriving later is never
    handled.  Under any arrival of signals, of kernel removals of the watch
    and of read failures, the watch is successfully removed at most once;
    an exit with success comes from the handler and leaves the watch gone,
    the queue closed and libnotify shut down; the only other exit is that
    of [main] after a read error, which it has reported, while no handler
    runs and with nothing released. *)
Theorem teardown_without_guard (fd wd sig : Z)
    (before schedule later : list action) :
  installed sig = true ->
  Forall quiet before ->
  (log (run (before ++ Deliver sig :: handler_run ++ later) (active fd wd)) =
     loop_trace fd before ++
     Printf exit_banner ::
     (if existsb is_drop before
      then [InotifyRmWatch fd wd (-1);
            Eprintf (line "Error removing file from inotify watch!")]
      else [InotifyRmWatch fd wd 0])
     ++ [CloseFd fd; NotifyUninit] /\
   exit_status
     (run (before ++ Deliver sig :: handler_run ++ later) (active fd wd)) =
     Some EXT_SUCCESS) /\
  (removals (log (run schedule (active fd wd))) <= 1)%nat /\
  (forall status,
     exit_status (run schedule (active fd wd)) = Some status ->
     (status = EXT_SUCCESS /\
      res (run schedule (active fd wd)) =
        {| queue_open := false; watch_live := false;
           libnotify_up := false |}) \/
     (status = EXT_ERR_READ_INOTIFY /\
      frames (run schedule (active fd wd)) = [] /\
      filter is_release (log (run schedule (active fd wd))) = [] /\
      In (Eprintf (line "Error reading from inotify event!"))
         (log (run schedule (active fd wd))))).
Proof.
  intros Hsig Hquiet. split; [|split].
  - change (Deliver sig :: handler_run ++ later)
      with ((Deliver sig :: handler_run) ++ later).
    rewrite !run_app.
    change (active fd wd) with (idle fd wd true []).
    rewrite (run_quiet fd wd before Hquiet true []). cbn [andb app].
    rewrite (handler_runs_to_exit fd wd sig _ _ Hsig).
    rewrite (run_after_exit later _ EXT_SUCCESS) by reflexivity.
    cbn [log exit_status].
    destruct (existsb is_drop before); split; reflexivity.
  - pose proof (run_removals schedule (active fd wd)) as H.
    cbn in H. lia.
  - intros status Hst.
    destruct (run_exit_status schedule fd wd status Hst)
      as [(-> & _ & Hres) | (-> & Hf & Hrel & Hin)].
    + left. split; [reflexivity|exact Hres].
    + right. repeat split; assumption.
Qed.

Lemma teardown_without_guard_witness :
  log (run ([LoopCall (Printf (line "Waiting for ievent..."));
             LoopCall (ReadQueue 3); WatchDropped; Step] ++
            Deliver SIGINT :: handler_run ++ [Deliver SIGTERM; Step])
         (active 3 1)) =
    loop_trace 3 [LoopCall (Printf (line "Waiting for ievent..."));
                  LoopCall (ReadQueue 3); WatchDropped; Step] ++
    Printf exit_banner ::
    (if existsb is_drop [LoopCall (Printf (line "Waiting for ievent..."));
                         LoopCall (ReadQueue 3); WatchDropped; Step]
     then [InotifyRmWatch 3 1 (-1);
           Eprintf (line "Error removing file from inotify watch!")]
     else [InotifyRmWatch 3 1 0])
    ++ [CloseFd 3; NotifyUninit] /\
  exit_status
    (run ([LoopCall (Printf (line "Waiting for ievent..."));
           LoopCall (ReadQueue 3); WatchDropped; Step] ++
          Deliver SIGINT :: handler_run ++ [Deliver SIGTERM; Step])
       (active 3 1)) = Some EXT_SUCCESS.
Proof.
  refine (proj1 (teardown_without_guard 3 1 SIGINT
                   [LoopCall (Printf (line "Waiting for ievent..."));
                    LoopCall (ReadQueue 3); WatchDropped; Step]
                   [Deliver SIGINT; ReadFails; Step]
                   [Deliver SIGTERM; Step]
                   eq_refl _)).
  repeat (constructor; [exact I|]). constructor.
Defined.

(** * Further properties *)

(** ** Classification and the watched flags *)

(* A test of a bit of [watch_flags] does not see the other bits. *)
Lemma flag_set_watched (mask f : Z) :
  Z.land watch_flags f = f ->
  flag_set (Z.land mask watch_flags) f = flag_set mask f.
Proof.
  intros Hf. unfold flag_set. rewrite <- Z.land_assoc, Hf. reflexivity.
Qed.

Lemma select_message_watched (mask : Z) :
  select_message (Z.land mask watch_flags) = select_message mask.
Proof.
  unfold select_message. rewrite !flag_set_watched by reflexivity.
  reflexivity.
Qed.

Lemma spec_classify_watched (mask : Z) :
  spec_classify (Z.land mask watch_flags) = spec_classify mask.
Proof.
  unfold spec_classify, first_match, priority_order.
  cbn [find category_flag]. rewrite !flag_set_watched by reflexivity.
  reflexivity.
Qed.

(** X1: the message depends on the six watched bits only.  Masking with
    [watch_flags] does not change it, and neither does setting any bit
    outside [watch_flags], such as the directory flag. *)
Theorem message_depends_on_watched_bits (mask : Z) :
  select_message mask = select_message (Z.land mask watch_flags) /\
  (forall other : Z,
     Z.land other watch_flags = 0 ->
     select_message (Z.lor mask other) = select_message mask).
Proof.
  split; [symmetry; apply select_message_watched|].
  intros other Hother.
  rewrite <- (select_message_watched (Z.lor mask other)).
  rewrite Z.land_lor_distr_l, Hother, Z.lor_0_r.
  apply select_message_watched.
Qed.

Lemma message_depends_on_watched_bits_witness :
  select_message (Z.lor IN_CREATE IN_ISDIR) = select_message IN_CREATE.
Proof.
  apply (proj2 (message_depends_on_watched_bits IN_CREATE) IN_ISDIR).
  reflexivity.
Defined.

(** X2: on a mask whose watched bits are exactly the flag of one category
    (or none, for Ignored) the program shows the message of that category,
    and so agrees with first-match classification: the order of the tests
    matters only when several watched bits are set. *)
Theorem single_flag_classification (mask : Z) (c : EventCategory) :
  Z.land mask watch_flags = category_flag c ->
  select_message mask = category_message c /\
  spec_classify mask = c.
Proof.
  intros H.
  rewrite <- (select_message_watched mask), <- (spec_classify_watched mask), H.
  destruct c; split; reflexivity.
Qed.

Lemma single_flag_classification_witness :
  select_message (Z.lor IN_DELETE IN_ISDIR) = category_message Deleted /\
  spec_classify (Z.lor IN_DELETE IN_ISDIR) = Deleted.
Proof.
  apply (single_flag_classification (Z.lor IN_DELETE IN_ISDIR) Deleted).
  reflexivity.
Defined.

(** ** How far the walk goes *)

Lemma walk_spacing (buf : list byte) (readLength : Z) :
  forall p,
    Forall (fun v => p <= fst v)
      (fst (event_loop record_visit buf readLength p [])) /\
    StronglySorted (fun a b => fst a + sizeof_inotify_event <= fst b)
      (fst (event_loop record_visit buf readLength p [])) /\
    sizeof_inotify_event *
      Z.of_nat (List.length (fst (event_loop record_visit buf readLength p [])))
      <= Z.max 0 (readLength - p + 15).
Proof.
  intros p. pattern p. apply (cursor_ind buf readLength). clear p.
  intros p IH. rewrite event_loop_step.
  unfold sizeof_inotify_event in *.
  destruct (Z.ltb_spec p readLength) as [Hlt|Hge]; cbn [fst].
  2: { repeat split; [constructor|constructor|cbn; lia]. }
  destruct (load_u32 buf (p + offsetof_mask)) as [m|]; cbn [fst].
  2: { repeat split; [constructor|constructor|cbn; lia]. }
  destruct (load_u32 buf (p + offsetof_len)) as [l|] eqn:Hl; cbn [fst].
  2: { repeat split; [repeat constructor; cbn; lia|repeat constructor|cbn; lia]. }
  pose proof (load_u32_nonneg _ _ _ Hl) as Hl0.
  assert (Hadv : p + 16 <= advance p l)
    by (unfold advance, sizeof_inotify_event; lia).
  destruct (IH l Hlt eq_refl) as (IHf & IHs & IHn).
  destruct (event_loop_as_fold record_visit buf readLength (advance p l)
              [] (record_visit p m [])) as [_ ->].
  cbn [fst record_visit app List.length]. repeat split.
  - constructor; [cbn; lia|].
    eapply Forall_impl; [|exact IHf]. cbn. intros v Hv. lia.
  - constructor; [exact IHs|].
    eapply Forall_impl; [|exact IHf]. cbn. intros v Hv. lia.
  - rewrite Nat2Z.inj_succ. lia.
Qed.

(** X3: the walk always terminates after a bounded number of records.
    Whatever the bytes, consecutive records it yields start at least a
    header size apart, in ascending order, and a read of [readLength]
    bytes yields at most [(readLength + 15) / 16] records. *)
Theorem walk_is_bounded (buf : list byte) (readLength : Z) :
  StronglySorted (fun a b => fst a + sizeof_inotify_event <= fst b)
    (fst (event_loop record_visit buf readLength 0 [])) /\
  sizeof_inotify_event *
    Z.of_nat (List.length (fst (event_loop record_visit buf readLength 0 [])))
    <= Z.max 0 (readLength + 15).
Proof.
  destruct (walk_spacing buf readLength 0) as (_ & Hs & Hn).
  rewrite Z.sub_0_r in Hn. split; assumption.
Qed.

Lemma event_loop_in_array {S : Type} (body : Z -> Z -> S -> S)
    (buf : list byte) (readLength : Z) (s : S) :
  readLength + 15 <= Z.of_nat (List.length buf) ->
  exists c, snd (event_loop body buf readLength 0 s) = Finished c.
Proof.
  intros Hfit.
  destruct (event_loop_as_fold body buf readLength 0 s []) as [-> _].
  cbn [snd].
  destruct (walk_range buf readLength 0 (Z.le_refl 0)) as [_ He].
  destruct (snd (event_loop record_visit buf readLength 0 [])) as [c|c].
  - exists c. reflexivity.
  - unfold sizeof_inotify_event in He. lia.
Qed.

Lemma read_into_length (buffer data : list byte) :
  List.length (fst (read_into buffer data)) = List.length buffer /\
  0 <= snd (read_into buffer data) <= Z.of_nat (List.length data).
Proof.
  unfold read_into. cbn [fst snd].
  rewrite length_app, length_skipn, length_firstn. lia.
Qed.

Lemma daemon_loop_defined snk fd basePath rs :
  Forall short_read rs ->
  forall buffer st,
    List.length buffer = sizeof_buffer ->
    is_defined (snd (daemon_loop snk fd basePath buffer rs st)) = true.
Proof.
  induction 1 as [|r rs Hr Hrs IH]; intros buffer st Hb; [reflexivity|].
  destruct r as [|data]; cbn [daemon_loop]; [reflexivity|].
  pose proof (read_into_length buffer data) as [Hlen Hgot].
  destruct (read_into buffer data) as [buffer' readLength].
  cbn [fst snd] in Hlen, Hgot. cbn [short_read] in Hr.
  destruct (event_loop_in_array (process_event snk basePath) buffer'
              readLength
              (emit (ReadQueue fd)
                 (emit (Printf (line "Waiting for ievent...")) st)))
    as [c Hc].
  { rewrite Hlen, Hb. lia. }
  destruct (event_loop _ buffer' readLength 0 _) as [st' e].
  cbn [snd] in Hc. subst e. apply IH. congruence.
Qed.

(** X4: the walk stays inside [buffer] whenever every read leaves the last
    15 bytes of the array untouched, that is, delivers at most 4081 bytes:
    then no run of [main] loads a header field outside the array, whatever
    the bytes read, truncated records included. *)
Theorem short_reads_stay_in_buffer (argv : list string) (w : World) :
  Forall short_read (reads w) ->
  is_defined (snd (main argv w)) = true.
Proof.
  intros Hshort. unfold main.
  destruct (Z.of_nat (List.length argv) <? 2); [reflexivity|].
  destruct (notify_init_ok w); cbn [negb]; [|reflexivity].
  destruct (inotify_init_fd w =? -1); [reflexivity|].
  destruct (add_watch_wd w =? -1); [reflexivity|].
  destruct (display_name (nth 1 argv EmptyString)) as [basePath|];
    [|reflexivity].
  match goal with
  | |- context [daemon_loop ?snk ?fd ?bp ?buf ?rs ?st] =>
      pose proof (daemon_loop_defined snk fd bp rs Hshort buf st
                    (length_initial_buffer w)) as H;
      destruct (daemon_loop snk fd bp buf rs st) as [st' o]
  end.
  exact H.
Qed.

Lemma short_reads_stay_in_buffer_witness :
  is_defined (snd (main ["rolexhound"; "f"] half_header_world)) = true.
Proof.
  apply (short_reads_stay_in_buffer ["rolexhound"; "f"] half_header_world).
  unfold half_header_world. cbn [reads].
  constructor; [|constructor].
  cbn [short_read]. apply Nat.leb_le. vm_compute. reflexivity.
Defined.

(** ** Whole reads, end to end *)

Lemma requests_for_app basePath (v1 v2 : list (Z * Z)) :
  requests_for basePath (v1 ++ v2) =
  requests_for basePath v1 ++ requests_for basePath v2.
Proof. apply flat_map_app. Qed.

Lemma serve_requests snk basePath fd batches :
  forall st,
    filter is_notification_new
        (out (fold_left (serve snk basePath fd) batches st)) =
      filter is_notification_new (out st) ++
      requests_for basePath (concat (map (record_starts 0) batches)).
Proof.
  induction batches as [|evs batches IH]; intros st.
  - cbn. rewrite app_nil_r. reflexivity.
  - cbn [fold_left map concat]. rewrite IH. unfold serve.
    rewrite process_events_requests, requests_for_app, <- app_assoc.
    f_equal. unfold waiting, emit. cbn [out].
    rewrite !filter_app. cbn. rewrite !app_nil_r. reflexivity.
Qed.

(** X5: decoding, classification and notification compose.  When the
    start-up succeeds and the reads deliver whole records, the run
    requests one notification per record that has a message, in the order
    of the reads and of the records within each read, each titled with the
    display name of [argv[1]]; whatever the stack held in [buffer] and
    whatever the sink answers.  With no read left the process stays
    blocked in [read]. *)
Theorem whole_reads_are_notified (argv : list string) (w : World)
    (batches : list (list inotify_event)) :
  (2 <= List.length argv)%nat ->
  notify_init_ok w = true ->
  inotify_init_fd w <> -1 ->
  add_watch_wd w <> -1 ->
  Forall fits batches ->
  reads w = whole_reads batches ->
  snd (main argv w) = Blocked /\
  exists basePath,
    display_name (nth 1 argv EmptyString) = Some basePath /\
    filter is_notification_new (fst (main argv w)) =
      requests_for basePath (concat (map (record_starts 0) batches)).
Proof.
  intros Hargc Hn Hq Hw Hfits Hreads.
  destruct (main_enters_loop argv w Hargc Hn Hq Hw) as (basePath & Hd & ->).
  rewrite Hreads, <- (app_nil_r (whole_reads batches)).
  match goal with
  | |- context [daemon_loop ?snk ?fd ?bp ?buf _ ?st] =>
      destruct (daemon_loop_whole_reads snk fd bp batches Hfits buf [] st
                  (length_initial_buffer w)) as (buffer' & _ & ->)
  end.
  cbn [daemon_loop fst snd]. split; [reflexivity|].
  exists basePath. split; [exact Hd|].
  unfold emit. cbn [out]. rewrite !filter_app, serve_requests.
  cbn. rewrite !app_nil_r. reflexivity.
Qed.

Lemma whole_reads_are_notified_witness :
  snd (main ["rolexhound"; "/tmp/f"] two_events_world) = Blocked /\
  exists basePath,
    display_name (nth 1 ["rolexhound"; "/tmp/f"] EmptyString) = Some basePath /\
    filter is_notification_new
        (fst (main ["rolexhound"; "/tmp/f"] two_events_world)) =
      requests_for basePath (concat (map (record_starts 0) [two_events])).
Proof.
  apply (whole_reads_are_notified ["rolexhound"; "/tmp/f"] two_events_world
           [two_events]).
  - simpl. lia.
  - reflexivity.
  - simpl. lia.
  - simpl. lia.
  - constructor; [|constructor]. split.
    + unfold two_events. repeat constructor; vm_compute; congruence.
    + apply Nat.leb_le. vm_compute. reflexivity.
  - reflexivity.
Defined.

(** ** The start-up *)

(* What the daemon loop adds to the trace. *)
Lemma process_events_extends snk basePath visits :
  forall st, exists t,
    out (process_events snk basePath visits st) = out st ++ t /\
    Forall (loop_call basePath) t.
Proof.
  induction visits as [|[p m] visits IH]; intros st.
  - exists []. split; [cbn; rewrite app_nil_r; reflexivity|constructor].
  - cbn [process_events fold_left fst snd].
    change (fold_left _ visits ?s) with (process_events snk basePath visits s).
    destruct (IH (process_event snk basePath p m st)) as (t & -> & Ht).
    destruct (select_message m) as [msg|] eqn:Hm.
    + rewrite (process_event_out _ _ _ _ _ _ Hm), <- app_assoc.
      eexists. split; [reflexivity|].
      apply Forall_app. split; [|exact Ht].
      destruct (snk (requested st)); repeat constructor.
    + unfold process_event. rewrite Hm. exists t. split; [reflexivity|exact Ht].
Qed.

Lemma daemon_loop_extends snk fd basePath rs :
  forall buffer st, exists t,
    out (fst (daemon_loop snk fd basePath buffer rs st)) = out st ++ t /\
    Forall (loop_call basePath) t.
Proof.
  induction rs as [|r rs IH]; intros buffer st.
  - cbn. rewrite <- app_assoc. eexists. split; [reflexivity|].
    repeat constructor.
  - destruct r as [|data]; cbn [daemon_loop].
    + cbn. rewrite <- !app_assoc. eexists. split; [reflexivity|].
      repeat constructor.
    + destruct (read_into buffer data) as [buffer' readLength].
      destruct (event_loop_as_fold (process_event snk basePath) buffer'
                  readLength 0
                  (emit (ReadQueue fd)
                     (emit (Printf (line "Waiting for ievent...")) st)) [])
        as [-> _].
      match goal with
      | |- context [fold_left _ ?l ?s0] =>
          change (fold_left _ l s0) with (process_events snk basePath l s0);
          destruct (process_events_extends snk basePath l s0) as (t1 & Ht1 & Hc1)
      end.
      cbn [out emit] in Ht1. rewrite <- !app_assoc in Ht1.
      destruct (snd (event_loop record_visit buffer' readLength 0 [])) as [c|c].
      * match goal with
        | |- context [daemon_loop snk fd basePath buffer' rs ?s1] =>
            destruct (IH buffer' s1) as (t2 & -> & Hc2)
        end.
        rewrite Ht1, <- app_assoc. eexists. split; [reflexivity|].
        cbn [app]. repeat constructor. apply Forall_app. split; assumption.
      * cbn [fst]. rewrite Ht1. eexists. split; [reflexivity|].
        cbn [app]. repeat constructor. exact Hc1.
Qed.

(* The five ways a run of [main] can go. *)
Lemma main_cases (argv : list string) (w : World) :
  ((List.length argv < 2)%nat /\
   main argv w =
     ([Eprintf (line "USAGE: rolexhound PATH")], Exited EXT_ERR_TOO_FEW_ARGS)) \/
  ((2 <= List.length argv)%nat /\ notify_init_ok w = false /\
   main argv w =
     ([NotifyInit ProgramTitle;
       Eprintf (line "Error initialising with libnotify!")],
      Exited EXT_ERR_INIT_LIBNOTIFY)) \/
  ((2 <= List.length argv)%nat /\ notify_init_ok w = true /\
   inotify_init_fd w = -1 /\
   main argv w =
     ([NotifyInit ProgramTitle; InotifyInit;
       Eprintf (line "Error initialising event queue!")],
      Exited EXT_ERR_INIT_INOTIFY)) \/
  ((2 <= List.length argv)%nat /\ notify_init_ok w = true /\
   inotify_init_fd w <> -1 /\ add_watch_wd w = -1 /\
   main argv w =
     ([NotifyInit ProgramTitle; InotifyInit;
       InotifyAddWatch (inotify_init_fd w) (nth 1 argv EmptyString) watch_flags;
       Eprintf (line "Error adding file to inotify watch!")],
      Exited EXT_ERR_ADD_WATCH)) \/
  ((2 <= List.length argv)%nat /\ notify_init_ok w = true /\
   inotify_init_fd w <> -1 /\ add_watch_wd w <> -1 /\
   exists basePath t,
     display_name (nth 1 argv EmptyString) = Some basePath /\
     fst (main argv w) =
       startup_trace (inotify_init_fd w) (nth 1 argv EmptyString) ++ t /\
     Forall (loop_call basePath) t /\
     (snd (main argv w) = Blocked \/
      snd (main argv w) = Exited EXT_ERR_READ_INOTIFY \/
      snd (main argv w) = Undefined)).
Proof.
  destruct (Nat.lt_ge_cases (List.length argv) 2) as [Hargc|Hargc].
  { left. split; [exact Hargc|]. unfold main.
    destruct (Z.ltb_spec (Z.of_nat (List.length argv)) 2); [reflexivity|lia]. }
  right.
  assert (Hlt : (Z.of_nat (List.length argv) <? 2) = false)
    by (apply Z.ltb_ge; lia).
  destruct (notify_init_ok w) eqn:Hn.
  2: { left. repeat split; try assumption.
       unfold main. rewrite Hlt, Hn. reflexivity. }
  right.
  destruct (Z.eqb_spec (inotify_init_fd w) (-1)) as [Hq|Hq].
  { left. repeat split; try assumption.
    unfold main. rewrite Hlt, Hn, Hq. reflexivity. }
  right.
  destruct (Z.eqb_spec (add_watch_wd w) (-1)) as [Hw|Hw].
  { left. repeat split; try assumption.
    unfold main. rewrite Hlt, Hn, Hw. cbn [negb].
    destruct (Z.eqb_spec (inotify_init_fd w) (-1)); [contradiction|].
    reflexivity. }
  right. repeat split; try assumption.
  destruct (main_enters_loop argv w Hargc Hn Hq Hw) as (basePath & Hd & ->).
  match goal with
  | |- context [daemon_loop ?snk ?fd ?bp ?buf ?rs ?st] =>
      destruct (daemon_loop_extends snk fd bp rs buf st) as (t & Ht & Hc);
      pose proof (daemon_loop_outcome snk fd bp rs buf st) as Ho
  end.
  exists basePath, t. cbn [fst snd out] in *.
  repeat split; assumption.
Qed.

Lemma loop_call_plain basePath (t : list io) :
  Forall (loop_call basePath) t ->
  filter is_acquire t = [] /\ filter is_signal_install t = [] /\
  filter is_release t = [].
Proof.
  intros H. repeat split; apply filter_none;
    (eapply Forall_impl; [|exact H]);
    intros []; cbn; intros Hc; try reflexivity; contradiction.
Qed.

(** X6: every step of the start-up has its own exit status, taken exactly
    when that step is the first to fail: too few arguments, then
    [notify_init], then [inotify_init], then [inotify_add_watch].  A run of
    [main] ends in one of these, in the read error, blocked in [read], or
    in a load outside [buffer]; [main] itself never exits with success. *)
Theorem startup_statuses (argv : list string) (w : World) :
  (snd (main argv w) = Exited EXT_ERR_TOO_FEW_ARGS <->
   (List.length argv < 2)%nat) /\
  (snd (main argv w) = Exited EXT_ERR_INIT_LIBNOTIFY <->
   (2 <= List.length argv)%nat /\ notify_init_ok w = false) /\
  (snd (main argv w) = Exited EXT_ERR_INIT_INOTIFY <->
   (2 <= List.length argv)%nat /\ notify_init_ok w = true /\
   inotify_init_fd w = -1) /\
  (snd (main argv w) = Exited EXT_ERR_ADD_WATCH <->
   (2 <= List.length argv)%nat /\ notify_init_ok w = true /\
   inotify_init_fd w <> -1 /\ add_watch_wd w = -1) /\
  In (snd (main argv w))
    [Exited EXT_ERR_TOO_FEW_ARGS; Exited EXT_ERR_INIT_LIBNOTIFY;
     Exited EXT_ERR_INIT_INOTIFY; Exited EXT_ERR_ADD_WATCH;
     Exited EXT_ERR_READ_INOTIFY; Blocked; Undefined].
Proof.
  assert (Hcases :
    (snd (main argv w) = Exited EXT_ERR_TOO_FEW_ARGS /\
     (List.length argv < 2)%nat) \/
    (snd (main argv w) = Exited EXT_ERR_INIT_LIBNOTIFY /\
     (2 <= List.length argv)%nat /\ notify_init_ok w = false) \/
    (snd (main argv w) = Exited EXT_ERR_INIT_INOTIFY /\
     (2 <= List.length argv)%nat /\ notify_init_ok w = true /\
     inotify_init_fd w = -1) \/
    (snd (main argv w) = Exited EXT_ERR_ADD_WATCH /\
     (2 <= List.length argv)%nat /\ notify_init_ok w = true /\
     inotify_init_fd w <> -1 /\ add_watch_wd w = -1) \/
    ((snd (main argv w) = Exited EXT_ERR_READ_INOTIFY \/
      snd (main argv w) = Blocked \/ snd (main argv w) = Undefined) /\
     (2 <= List.length argv)%nat /\ notify_init_ok w = true /\
     inotify_init_fd w <> -1 /\ add_watch_wd w <> -1)).
  { destruct (main_cases argv w)
      as [(H1 & Hm) | [(H1 & H2 & Hm) | [(H1 & H2 & H3 & Hm) |
          [(H1 & H2 & H3 & H4 & Hm) |
           (H1 & H2 & H3 & H4 & basePath & t & _ & _ & _ & Hm)]]]].
    - left. rewrite Hm. tauto.
    - right. left. rewrite Hm. tauto.
    - right. right. left. rewrite Hm. tauto.
    - right. right. right. left. rewrite Hm. tauto.
    - right. right. right. right. tauto. }
  unfold EXT_ERR_TOO_FEW_ARGS, EXT_ERR_INIT_LIBNOTIFY, EXT_ERR_INIT_INOTIFY,
    EXT_ERR_ADD_WATCH, EXT_ERR_READ_INOTIFY in *.
  destruct Hcases
    as [(Hs & H1) | [(Hs & H1 & H2) | [(Hs & H1 & H2 & H3) |
        [(Hs & H1 & H2 & H3 & H4) | (Hs & H1 & H2 & H3 & H4)]]]].
  5: destruct Hs as [Hs | [Hs | Hs]].
  all: rewrite Hs; cbn [In].
  all: repeat match goal with
       | |- _ /\ _ => split
       | |- _ <-> _ =>
           split;
           [ intros Heq; first [discriminate Heq | repeat split; assumption]
           | intros Hc; first [reflexivity
                              | exfalso; decompose [and] Hc;
                                first [lia | congruence]] ]
       end.
  all: repeat first [left; reflexivity | right].
Qed.

(** X7: the signal handlers are installed only once every acquisition has
    succeeded.  Either a run installs no handler at all, or [notify_init],
    [inotify_init] and [inotify_add_watch] all succeeded, the run starts
    with these three calls followed by the installation for [SIGABRT],
    [SIGINT] and [SIGTERM], once each, and nothing is acquired, installed
    or released after that. *)
Theorem handlers_after_acquisition (argv : list string) (w : World) :
  filter is_signal_install (fst (main argv w)) = [] \/
  (notify_init_ok w = true /\ inotify_init_fd w <> -1 /\
   add_watch_wd w <> -1 /\
   exists t,
     fst (main argv w) =
       [NotifyInit ProgramTitle; InotifyInit;
        InotifyAddWatch (inotify_init_fd w) (nth 1 argv EmptyString)
          watch_flags;
        SignalInstall SIGABRT; SignalInstall SIGINT; SignalInstall SIGTERM]
       ++ t /\
     filter is_acquire t = [] /\ filter is_signal_install t = [] /\
     filter is_release t = []).
Proof.
  destruct (main_cases argv w)
    as [(H1 & Hm) | [(H1 & H2 & Hm) | [(H1 & H2 & H3 & Hm) |
        [(H1 & H2 & H3 & H4 & Hm) |
         (H1 & H2 & H3 & H4 & basePath & t & _ & Ht & Hc & _)]]]].
  1-4: left; rewrite Hm; reflexivity.
  right. repeat split; try assumption.
  exists t. split; [exact Ht|]. apply (loop_call_plain basePath), Hc.
Qed.

(** ** The display name of any path *)

Section AnyPath.

Local Open Scope nat_scope.

(* The tokens that end in ['/'] are walked through: the loop arrives at
   what follows them, with [basePath] possibly moved. *)
Lemma tokenize_from_skip (toks : list (list ascii)) :
  Forall (Forall plain) toks ->
  forall (R done : list ascii) (basePath : option nat),
  exists basePath' done',
    List.length done' = List.length done + List.length (segments toks) /\
    tokenize_from basePath
      {| mem := done ++ segments toks ++ R; olds := List.length done |} =
    tokenize_from basePath'
      {| mem := done' ++ R; olds := List.length done' |}.
Proof.
  induction 1 as [|t toks Ht Htoks IH]; intros R done basePath.
  - exists basePath, done. cbn [segments map concat app List.length].
    split; [lia|reflexivity].
  - unfold segments. cbn [map concat]. fold (segments toks).
    destruct t as [|c t].
    + cbn [app]. unfold tokenize_from at 1. rewrite strtok_skips_slash.
      destruct (IH R (done ++ [slash]) basePath) as (bp' & done' & Hlen & Hrun).
      exists bp', done'. split.
      * rewrite Hlen, length_app. cbn [List.length]. lia.
      * exact Hrun.
    + unfold tokenize_from at 1. rewrite <- !app_assoc.
      change ([slash] ++ segments toks ++ R) with (slash :: segments toks ++ R).
      rewrite (strtok_token_slash done (c :: t)) by (assumption || discriminate).
      cbn [fst snd]. rewrite last_token_loop_step.
      destruct (IH R (done ++ (c :: t) ++ [NUL]) (Some (List.length done)))
        as (bp' & done' & Hlen & Hrun).
      exists bp', done'. split.
      * rewrite Hlen.
        repeat first [rewrite length_app | progress cbn [List.length app]].
        lia.
      * exact Hrun.
Qed.

(* At the last segment, with nothing but ['/'] behind it, the loop ends
   with [basePath] at that segment, terminated where it ends. *)
Lemma tokenize_from_last (seg tail : list ascii) :
  Forall plain seg -> seg <> [] -> Forall (eq slash) tail ->
  forall (done : list ascii) (basePath : option nat),
  exists st',
    tokenize_from basePath
      {| mem := done ++ seg ++ tail ++ [NUL]; olds := List.length done |} =
    (Some (List.length done), st') /\
    c_chars (skipn (List.length done) (mem st')) = seg.
Proof.
  intros Hseg Hne Htail done basePath.
  destruct tail as [|c tail].
  - unfold tokenize_from. cbn [app].
    rewrite (strtok_token_end done seg []) by assumption. cbn [fst snd].
    rewrite last_token_loop_step, strtok_at_end. cbn [fst snd].
    rewrite last_token_loop_equation_2.
    eexists. split; [reflexivity|]. cbn [mem].
    rewrite <- app_assoc, skipn_length_app. apply c_chars_plain, Hseg.
  - inversion Htail as [|? ? Hc Htail']; subst.
    unfold tokenize_from. cbn [app].
    rewrite (strtok_token_slash done seg) by assumption. cbn [fst snd].
    rewrite last_token_loop_step.
    pose proof (tokenize_from_slashes tail Htail' (done ++ seg ++ [NUL])
                  (Some (List.length done))) as Hrun.
    unfold tokenize_from in Hrun. rewrite Hrun.
    eexists. split; [reflexivity|]. cbn [mem].
    rewrite <- !app_assoc, skipn_length_app. cbn [app].
    apply c_chars_plain, Hseg.
Qed.

(* A path is made of ['/'] only, or of segments, a last non-empty segment
   and a run of ['/']. *)
Lemma path_shape (l : list ascii) :
  Forall (fun c => is_nul c = false) l ->
  Forall (eq slash) l \/
  exists toks seg tail,
    Forall (Forall plain) toks /\ Forall plain seg /\ seg <> [] /\
    Forall (eq slash) tail /\ l = segments toks ++ seg ++ tail.
Proof.
  induction 1 as [|c l Hc Hl IH]; [left; constructor|].
  destruct (is_delim path_delim c) eqn:Hd.
  - assert (c = slash) as ->.
    { unfold is_delim in Hd. cbn [existsb path_delim] in Hd.
      rewrite orb_false_r in Hd. apply Ascii.eqb_eq, Hd. }
    destruct IH as [Hall | (toks & seg & tail & Ht & Hs & Hne & Htl & ->)].
    + left. constructor; [reflexivity|exact Hall].
    + right. exists ([] :: toks), seg, tail.
      repeat split; try assumption.
      constructor; [constructor|exact Ht].
  - assert (Hp : plain c) by (split; assumption).
    right.
    destruct IH as [Hall | (toks & seg & tail & Ht & Hs & Hne & Htl & ->)].
    + exists [], [c], l. repeat split; try assumption.
      * constructor.
      * constructor; [exact Hp|constructor].
      * discriminate.
    + destruct toks as [|t0 ts].
      * exists [], (c :: seg), tail. repeat split; try assumption.
        -- constructor; assumption.
        -- discriminate.
      * exists ((c :: t0) :: ts), seg, tail.
        repeat split; try assumption.
        inversion Ht; subst. constructor; [|assumption].
        constructor; assumption.
Qed.

(* The display name of segments, a last segment and trailing ['/']. *)
Lemma display_name_of_shape (toks : list (list ascii)) (seg tail : list ascii) :
  Forall (Forall plain) toks -> Forall plain seg -> seg <> [] ->
  Forall (eq slash) tail ->
  display_name (string_of_list_ascii (segments toks ++ seg ++ tail)) =
    Some (string_of_list_ascii seg).
Proof.
  intros Ht Hs Hne Htl.
  assert (Hnn : Forall (fun c => is_nul c = false)
                  (segments toks ++ seg ++ tail)).
  { repeat (apply Forall_app; split).
    - unfold segments. apply Forall_concat, Forall_map.
      eapply Forall_impl; [|exact Ht]. intros t Hpt.
      apply Forall_app. split.
      + eapply Forall_impl; [|exact Hpt]. intros c [Hc _]. exact Hc.
      + repeat constructor.
    - eapply Forall_impl; [|exact Hs]. intros c [Hc _]. exact Hc.
    - eapply Forall_impl; [|exact Htl]. intros c <-. reflexivity. }
  unfold display_name. rewrite tokenize_from_start.
  unfold strcpy_new.
  rewrite list_ascii_of_string_of_list_ascii, c_chars_no_nul by exact Hnn.
  rewrite <- !app_assoc.
  destruct (tokenize_from_skip toks Ht (seg ++ tail ++ [NUL]) []
              (Some 0)) as (bp' & done' & _ & Hrun).
  cbn [List.length] in Hrun. rewrite Hrun.
  destruct (tokenize_from_last seg tail Hs Hne Htl done' bp')
    as (st' & -> & Hstr).
  cbn [option_map]. unfold c_string. rewrite Hstr. reflexivity.
Qed.

End AnyPath.

Lemma string_of_list_ascii_app (l1 l2 : list ascii) :
  string_of_list_ascii (l1 ++ l2) =
  String.append (string_of_list_ascii l1) (string_of_list_ascii l2).
Proof.
  induction l1 as [|c l1 IH]; simpl; [reflexivity|]. rewrite IH. reflexivity.
Qed.

Lemma only_slashes_chars (s : string) :
  only_slashes s = true <-> Forall (eq slash) (list_ascii_of_string s).
Proof.
  unfold only_slashes. rewrite forallb_forall, Forall_forall.
  split; intros H c Hc; specialize (H c Hc); apply Ascii.eqb_eq; exact H.
Qed.

Lemma plain_free_of_slash (l : list ascii) :
  Forall plain l -> free_of slash (string_of_list_ascii l) = true.
Proof.
  intros H. unfold free_of. rewrite list_ascii_of_string_of_list_ascii.
  apply forallb_forall. intros c Hc. rewrite Forall_forall in H.
  destruct (H c Hc) as [_ Hd]. unfold is_delim in Hd.
  cbn [existsb path_delim] in Hd. rewrite orb_false_r in Hd.
  rewrite Hd. reflexivity.
Qed.

Lemma segments_end (toks : list (list ascii)) :
  toks = [] \/ exists x, segments toks = x ++ [slash].
Proof.
  destruct toks as [|t toks] using rev_ind; [left; reflexivity|].
  right. unfold segments. rewrite map_app, concat_app. cbn [map concat].
  rewrite app_nil_r, app_assoc. eexists. reflexivity.
Qed.

(** X8: separators at the end of the path are ignored.  When a non-empty
    segment free of ['/'] is followed by nothing but ['/'], the display
    name is that segment, whether it is the whole path before those
    separators or comes after a ['/']. *)
Theorem trailing_separators_ignored (pre seg tail : string) :
  free_of NUL pre = true ->
  free_of NUL seg = true ->
  free_of slash seg = true ->
  seg <> EmptyString ->
  only_slashes tail = true ->
  display_name (String.append seg tail) = Some seg /\
  display_name
    (String.append pre (String.append "/" (String.append seg tail))) =
    Some seg.
Proof.
  intros Hpre Hnul Hslash Hne Htail.
  pose proof (free_of_plain _ Hnul Hslash) as Hseg.
  assert (Hne' : list_ascii_of_string seg <> [])
    by (destruct seg; [congruence|discriminate]).
  apply only_slashes_chars in Htail.
  destruct (split_segments _ (free_of_nul_chars _ Hpre)) as (toks & Htoks & Heq).
  pose proof (display_name_of_shape [] _ _ (Forall_nil _) Hseg Hne' Htail) as H1.
  pose proof (display_name_of_shape toks _ _ Htoks Hseg Hne' Htail) as H2.
  rewrite string_of_list_ascii_of_string in H1, H2.
  cbn [segments map concat app] in H1.
  rewrite <- list_ascii_of_string_app, string_of_list_ascii_of_string in H1.
  rewrite <- Heq, <- list_ascii_of_string_app in H2.
  change [slash] with (list_ascii_of_string "/") in H2.
  rewrite <- app_assoc, <- !list_ascii_of_string_app,
    string_of_list_ascii_of_string in H2.
  split; assumption.
Qed.

Lemma trailing_separators_ignored_witness :
  display_name (String.append "b" "//") = Some "b" /\
  display_name
    (String.append "/a" (String.append "/" (String.append "b" "//"))) =
    Some "b".
Proof.
  apply (trailing_separators_ignored "/a" "b" "//");
    reflexivity || discriminate.
Defined.

(** X9: what the display name of a path can be.  Either the path consists
    of ['/'] only (the empty path included) and is its own display name,
    or the display name is the last non-empty segment of the path: it is
    not empty, holds no ['/'], is followed in the path by ['/'] only, and
    is preceded by nothing or by a ['/']. *)
Theorem display_name_shape (path : string) :
  free_of NUL path = true ->
  (only_slashes path = true /\ display_name path = Some path) \/
  (exists d pre tail : string,
     display_name path = Some d /\
     d <> EmptyString /\
     free_of slash d = true /\
     path = String.append pre (String.append d tail) /\
     only_slashes tail = true /\
     (pre = EmptyString \/ exists pre', pre = String.append pre' "/")).
Proof.
  intros Hnul.
  destruct (path_shape _ (free_of_nul_chars _ Hnul))
    as [Hall | (toks & seg & tail & Ht & Hs & Hne & Htl & Heq)].
  - left. apply only_slashes_chars in Hall.
    split; [exact Hall|apply display_name_only_slashes, Hall].
  - right.
    exists (string_of_list_ascii seg), (string_of_list_ascii (segments toks)),
      (string_of_list_ascii tail).
    assert (Hpath : path =
              String.append (string_of_list_ascii (segments toks))
                (String.append (string_of_list_ascii seg)
                   (string_of_list_ascii tail))).
    { rewrite <- !string_of_list_ascii_app, <- Heq.
      symmetry. apply string_of_list_ascii_of_string. }
    split; [|split; [|split; [|split; [|split]]]].
    + rewrite <- (string_of_list_ascii_of_string path), Heq.
      apply display_name_of_shape; assumption.
    + destruct seg; [congruence|discriminate].
    + apply plain_free_of_slash, Hs.
    + exact Hpath.
    + apply only_slashes_chars.
      rewrite list_ascii_of_string_of_list_ascii. exact Htl.
    + destruct (segments_end toks) as [-> | [x Hx]]; [left; reflexivity|].
      right. exists (string_of_list_ascii x).
      rewrite Hx, string_of_list_ascii_app. reflexivity.
Qed.

Lemma display_name_shape_witness :
  (only_slashes "/a/b/" = true /\ display_name "/a/b/" = Some "/a/b/") \/
  (exists d pre tail : string,
     display_name "/a/b/" = Some d /\
     d <> EmptyString /\
     free_of slash d = true /\
     "/a/b/" = String.append pre (String.append d tail) /\
     only_slashes tail = true /\
     (pre = EmptyString \/ exists pre', pre = String.append pre' "/")).
Proof.
  apply (display_name_shape "/a/b/"). reflexivity.
Defined.

(** ** Signals, once more *)

Lemma single_ok_bounds (sig : Z) (p : process) :
  single_ok sig p ->
  (List.length (frames p) <= 1)%nat /\
  (List.length (filter is_rm_watch (log p)) <= 1)%nat /\
  (List.length (filter is_close (log p)) <= 1)%nat.
Proof.
  unfold single_ok. destruct (frames p) as [|f [|g fs]].
  - intros [-> ->]. cbn. lia.
  - intros (_ & -> & ->). cbn [List.length]. destruct (pc f); lia.
  - intros [].
Qed.

(* While the handler of [sig] runs, [sig] itself is not delivered: one
   activation at most, each call of the teardown made once at most. *)
Lemma perform_single_ok (sig : Z) (p : process) (a : action) :
  only_signal sig a -> single_ok sig p -> single_ok sig (perform p a).
Proof.
  intros Ha Hp. unfold perform, main_statement.
  destruct (gone p); [exact Hp|].
  destruct a as [s| |e| |].
  - cbn in Ha. subst s.
    destruct (installed sig).
    + destruct (blocked sig (frames p)) eqn:Hb; [exact Hp|].
      unfold single_ok in *. cbn [frames log pc signum].
      destruct (frames p) as [|f [|g fs]].
      * destruct Hp as [-> ->]. repeat split.
      * destruct Hp as (Hs & _). cbn in Hb. rewrite Hs, Z.eqb_refl in Hb.
        discriminate.
      * destruct Hp.
    + destruct (default_terminates sig); exact Hp.
  - unfold single_ok in *.
    destruct (frames p) as [|f [|g fs]] eqn:Hf; [| |destruct Hp].
    { destruct Hp as [Hrm Hcl].
      destruct (at_main p); cbn [frames log]; rewrite ?Hf, ?filter_app,
        ?Hrm, ?Hcl; split; reflexivity. }
    destruct Hp as (Hs & Hrm & Hcl).
    unfold sig_shutdown_handler.
    destruct (pc f) eqn:Hpc;
      try destruct (inotify_rm_watch (res p));
      try destruct (closeStatus f =? -1);
      cbn [frames log pc signum];
      rewrite ?filter_app, ?length_app, ?Hpc, ?Hrm, ?Hcl;
      cbn [filter is_rm_watch is_close List.length Nat.add];
      (split; [exact Hs|split; reflexivity]).
  - unfold single_ok in *.
    destruct (frames p) as [|f fs] eqn:Hf; [|rewrite Hf; exact Hp].
    destruct (at_main p); try (rewrite Hf; exact Hp).
    destruct (main_loop_call (IeventQueue p) e) eqn:He;
      [|rewrite Hf; exact Hp].
    destruct (main_loop_call_no_release _ _ He) as (_ & Hno1 & _ & Hno2).
    cbn [frames log]. rewrite !filter_app. cbn [filter].
    rewrite Hno1, Hno2. destruct Hp as [-> ->]. split; reflexivity.
  - exact Hp.
  - unfold single_ok in *.
    destruct (frames p) as [|f fs] eqn:Hf; [|rewrite Hf; exact Hp].
    destruct (at_main p); try (rewrite Hf; exact Hp).
    cbn [frames log]. exact Hp.
Qed.

Lemma run_single_ok (sig : Z) (schedule : list action) :
  Forall (only_signal sig) schedule ->
  forall p, single_ok sig p -> single_ok sig (run schedule p).
Proof.
  induction 1 as [|a schedule Ha Hall IH]; intros p Hp; [exact Hp|].
  cbn [run fold_left]. apply IH, perform_single_ok; assumption.
Qed.

(* Unless the kernel drops the watch, the one removal finds it. *)
Lemma perform_undropped_ok (sig : Z) (p : process) (a : action) :
  only_signal sig a -> is_drop a = false ->
  single_ok sig p -> undropped_ok p -> undropped_ok (perform p a).
Proof.
  intros Ha Hd Hs Hp. unfold perform, main_statement.
  destruct (gone p); [exact Hp|].
  destruct a as [s| |e| |]; [| | | discriminate |].
  - destruct (installed s).
    + destruct (blocked s (frames p)) eqn:Hb; [exact Hp|].
      unfold undropped_ok, single_ok in *. cbn [frames log pc res].
      destruct (frames p) as [|f [|g fs]].
      * exact Hp.
      * cbn in Ha. subst s. destruct Hs as (Hs & _).
        cbn in Hb. rewrite Hs, Z.eqb_refl in Hb. discriminate.
      * destruct Hs.
    + destruct (default_terminates s); exact Hp.
  - unfold undropped_ok, single_ok in *.
    destruct (frames p) as [|f [|g fs]] eqn:Hf; [| |destruct Hs].
    { destruct Hp as (Hlog & Hres).
      destruct (at_main p); cbn [frames log res];
        rewrite ?Hf, ?filter_app, ?Hlog; (split; [reflexivity|exact Hres]). }
    destruct Hp as (Hlog & Hres).
    unfold sig_shutdown_handler, inotify_rm_watch.
    destruct (pc f) eqn:Hpc.
    + cbn [frames log pc res]. rewrite !filter_app, Hlog.
      split; [reflexivity|exact Hres].
    + destruct Hres as [-> ->]. cbn [andb frames log pc res].
      rewrite !filter_app, Hlog. split; [reflexivity|exact I].
    + destruct (closeStatus f =? -1); cbn [frames log pc res];
        rewrite ?filter_app, ?Hlog; split; reflexivity || exact I.
    + cbn [frames log pc res]. rewrite !filter_app, Hlog.
      split; [reflexivity|exact I].
    + cbn [frames log pc res]. rewrite !filter_app, Hlog.
      split; [reflexivity|exact I].
    + cbn [frames log pc res]. rewrite Hpc. split; [exact Hlog|exact I].
  - unfold undropped_ok in *.
    destruct (frames p) as [|f fs] eqn:Hf; [|rewrite Hf; exact Hp].
    destruct (at_main p); try (rewrite Hf; exact Hp).
    destruct (main_loop_call (IeventQueue p) e) eqn:He;
      [|rewrite Hf; exact Hp].
    destruct (main_loop_call_no_release _ _ He) as (_ & Hno1 & Hno2 & _).
    destruct Hp as (Hlog & Hres). cbn [frames log res].
    rewrite !filter_app, Hlog. cbn [filter]. rewrite Hno1, Hno2.
    split; [reflexivity|exact Hres].
  - unfold undropped_ok in *.
    destruct (frames p) as [|f fs] eqn:Hf; [|rewrite Hf; exact Hp].
    destruct (at_main p); try (rewrite Hf; exact Hp).
    cbn [frames log res]. exact Hp.
Qed.

Lemma run_undropped_ok (sig : Z) (schedule : list action) :
  Forall (only_signal sig) schedule ->
  existsb is_drop schedule = false ->
  forall p,
    single_ok sig p -> undropped_ok p -> undropped_ok (run schedule p).
Proof.
  induction 1 as [|a schedule Ha Hall IH]; intros Hd p Hs Hp; [exact Hp|].
  cbn [existsb] in Hd. apply orb_false_iff in Hd. destruct Hd as [Hd1 Hd2].
  cbn [run fold_left]. apply (IH Hd2).
  - apply perform_single_ok; assumption.
  - apply (perform_undropped_ok sig); assumption.
Qed.

(** X10: a signal does not interrupt its own handler.  When no signal but
    one is ever delivered, however often and whenever, and whatever the
    kernel does to the watch and to the reads, at most one activation of
    the handler exists, the watch is removed at most once and the queue is
    closed at most once; and as long as the kernel has not dropped the
    watch, the removal is never in vain. *)
Theorem single_signal_tears_down_once (fd wd sig : Z) (schedule : list action) :
  Forall (only_signal sig) schedule ->
  (List.length (frames (run schedule (active fd wd))) <= 1)%nat /\
  (List.length (filter is_rm_watch (log (run schedule (active fd wd)))) <= 1)%nat /\
  (existsb is_drop schedule = false ->
   filter is_rm_watch (log (run schedule (active fd wd))) =
     filter is_rm_watch_ok (log (run schedule (active fd wd)))) /\
  (List.length (filter is_close (log (run schedule (active fd wd)))) <= 1)%nat.
Proof.
  intros Hall.
  assert (Hs : single_ok sig (active fd wd)) by (split; reflexivity).
  pose proof (single_ok_bounds sig _
                (run_single_ok sig schedule Hall _ Hs)) as (H1 & H2 & H3).
  split; [exact H1|]. split; [exact H2|]. split; [|exact H3].
  intros Hd.
  assert (Hu : undropped_ok (active fd wd)).
  { split; [reflexivity|]. split; reflexivity. }
  exact (proj1 (run_undropped_ok sig schedule Hall Hd _ Hs Hu)).
Qed.

Lemma single_signal_tears_down_once_witness :
  (List.length
     (frames (run [LoopCall (ReadQueue 3); Deliver SIGINT; Step;
                   ReadFails; Deliver SIGINT; Step; Deliver SIGINT; Step;
                   Step] (active 3 1)))
   <= 1)%nat /\
  (List.length
     (filter is_rm_watch
        (log (run [LoopCall (ReadQueue 3); Deliver SIGINT; Step;
                   ReadFails; Deliver SIGINT; Step; Deliver SIGINT; Step;
                   Step] (active 3 1))))
   <= 1)%nat /\
  (existsb is_drop [LoopCall (ReadQueue 3); Deliver SIGINT; Step;
                    ReadFails; Deliver SIGINT; Step; Deliver SIGINT; Step;
                    Step] = false ->
   filter is_rm_watch
     (log (run [LoopCall (ReadQueue 3); Deliver SIGINT; Step;
                ReadFails; Deliver SIGINT; Step; Deliver SIGINT; Step;
                Step] (active 3 1))) =
   filter is_rm_watch_ok
     (log (run [LoopCall (ReadQueue 3); Deliver SIGINT; Step;
                ReadFails; Deliver SIGINT; Step; Deliver SIGINT; Step;
                Step] (active 3 1)))) /\
  (List.length
     (filter is_close
        (log (run [LoopCall (ReadQueue 3); Deliver SIGINT; Step;
                   ReadFails; Deliver SIGINT; Step; Deliver SIGINT; Step;
                   Step] (active 3 1))))
   <= 1)%nat.
Proof.
  apply (single_signal_tears_down_once 3 1 SIGINT).
  repeat constructor.
Defined.

Lemma blocked_iff (sig : Z) (fs : list frame) :
  blocked sig fs = true <-> In sig (map signum fs).
Proof.
  unfold blocked. rewrite existsb_exists, in_map_iff.
  split; intros (f & H1 & H2); exists f.
  - apply Z.eqb_eq in H2. tauto.
  - split; [tauto|]. apply Z.eqb_eq. tauto.
Qed.

Lemma frames_distinct_bound (p : process) :
  frames_distinct p -> (List.length (frames p) <= 3)%nat.
Proof.
  intros [Hnd Hin]. rewrite <- (length_map signum).
  change 3%nat with (List.length [SIGABRT; SIGINT; SIGTERM]).
  apply NoDup_incl_length; [exact Hnd|].
  intros sig Hs. apply in_map_iff in Hs. destruct Hs as (f & <- & Hf).
  rewrite Forall_forall in Hin. specialize (Hin f Hf).
  unfold installed in Hin. apply orb_true_iff in Hin.
  destruct Hin as [Hin|Hin]; [apply orb_true_iff in Hin; destruct Hin as [Hin|Hin]|];
    apply Z.eqb_eq in Hin; rewrite Hin; cbn; tauto.
Qed.

Lemma perform_frames_distinct (p : process) (a : action) :
  frames_distinct p -> frames_distinct (perform p a).
Proof.
  intros Hp. pose proof Hp as [Hnd Hin]. unfold perform, main_statement.
  destruct (gone p); [exact Hp|].
  destruct a as [sig| |e| |].
  - destruct (installed sig) eqn:Hsig.
    + destruct (blocked sig (frames p)) eqn:Hb; [exact Hp|].
      split; cbn [frames map signum].
      * constructor; [|exact Hnd].
        intros Hc. apply blocked_iff in Hc. congruence.
      * constructor; [exact Hsig|exact Hin].
    + destruct (default_terminates sig); exact Hp.
  - destruct (frames p) as [|f outer] eqn:Hf.
    { destruct (at_main p); [exact Hp| |];
        (split; cbn [frames map]; constructor). }
    cbn [map] in Hnd. inversion Hin as [|? ? Hf0 Houter]; subst.
    unfold sig_shutdown_handler.
    destruct (pc f); try destruct (inotify_rm_watch (res p));
      (split; cbn [frames map signum]; [exact Hnd|]);
      constructor; assumption.
  - destruct (frames p) as [|f outer] eqn:Hf; [|exact Hp].
    destruct (at_main p); try exact Hp.
    destruct (main_loop_call (IeventQueue p) e); [|exact Hp].
    split; cbn [frames map]; constructor.
  - exact Hp.
  - destruct (frames p) as [|f outer] eqn:Hf; [|exact Hp].
    destruct (at_main p); try exact Hp.
    split; cbn [frames map]; constructor.
Qed.

(* A signal that the process survives leaves it alive, and an activation
   of the handler never goes away. *)
Lemma perform_stays (p : process) (a : action) :
  survivable a -> frames p <> [] -> killed_by p = None ->
  frames (perform p a) <> [] /\ killed_by (perform p a) = None.
Proof.
  intros Ha Hne Hk. unfold perform.
  destruct (gone p); [split; assumption|].
  destruct a as [sig| |e| |].
  - cbn in Ha. destruct (installed sig).
    + destruct (blocked sig (frames p)); [split; assumption|].
      split; [discriminate|reflexivity].
    + destruct Ha as [Ha|Ha]; [discriminate|]. rewrite Ha.
      split; assumption.
  - destruct (frames p) as [|f outer]; [congruence|].
    unfold sig_shutdown_handler.
    destruct (pc f); try destruct (inotify_rm_watch (res p));
      split; discriminate || reflexivity.
  - destruct (frames p) as [|f outer] eqn:Hf; [congruence|].
    split; [rewrite Hf; discriminate|exact Hk].
  - split; [exact Hne|reflexivity].
  - destruct (frames p) as [|f outer] eqn:Hf; [congruence|].
    split; [rewrite Hf; discriminate|exact Hk].
Qed.

(* A statement of the handler brings the process closer to [exit];
   nothing else takes it further away. *)
Lemma perform_statements_left (p : process) (a : action) :
  frames_distinct p -> frames p <> [] -> killed_by p = None ->
  (match a with
   | Step =>
       exit_status p <> None \/
       (S (statements_left (perform p a)) <= statements_left p)%nat
   | _ => (statements_left (perform p a) <= statements_left p)%nat
   end).
Proof.
  intros Hp Hne Hk. pose proof (frames_distinct_bound p Hp) as Hlen.
  pose proof (frames_distinct_bound _ (perform_frames_distinct p a Hp)) as Hlen'.
  unfold perform in *. unfold gone in *. rewrite Hk in *.
  destruct (exit_status p) eqn:He.
  { destruct a; try lia. left. discriminate. }
  destruct (frames p) as [|f outer] eqn:Hf; [congruence|].
  destruct a as [sig| |e| |]; try lia.
  - destruct (installed sig).
    + destruct (blocked sig (f :: outer)); [lia|].
      unfold statements_left.
      cbn [exit_status frames pc remaining List.length] in *.
      rewrite He, Hf. cbn [List.length].
      destruct (pc f); cbn [remaining]; lia.
    + destruct (default_terminates sig); [|lia].
      unfold statements_left. cbn [exit_status frames]. rewrite He, Hf. lia.
  - right. unfold statements_left. rewrite He, Hf.
    unfold sig_shutdown_handler.
    destruct (pc f); try destruct (inotify_rm_watch (res p));
      cbn [exit_status frames pc remaining List.length]; lia.
  - unfold statements_left. cbn [exit_status frames]. rewrite He, Hf. lia.
Qed.

Lemma run_exits (schedule : list action) :
  Forall survivable schedule ->
  forall p,
    frames_distinct p -> frames p <> [] -> killed_by p = None ->
    (statements_left p <= count_steps schedule)%nat ->
    exists status,
      exit_status (run schedule p) = Some status /\
      frames (run schedule p) <> [].
Proof.
  induction 1 as [|a schedule Ha Hall IH]; intros p Hp Hne Hk Hleft.
  - cbn in Hleft. unfold statements_left in Hleft. cbn [run fold_left].
    destruct (exit_status p) as [status|];
      [exists status; split; [reflexivity|exact Hne]|].
    destruct (frames p) as [|f outer]; [congruence|].
    destruct (pc f); cbn in Hleft; lia.
  - destruct (exit_status p) as [status|] eqn:He.
    { exists status. rewrite (run_after_exit _ _ status He).
      split; [exact He|exact Hne]. }
    cbn [run fold_left].
    pose proof (perform_statements_left p a Hp Hne Hk) as Hstep.
    destruct (perform_stays p a Ha Hne Hk) as [Hne' Hk'].
    apply IH; [apply perform_frames_distinct, Hp|exact Hne'|exact Hk'|].
    destruct a as [sig| |e| |]; unfold count_steps in *;
      cbn [filter List.length] in *; try lia.
    destruct Hstep as [Hc | Hc]; [congruence|lia].
Qed.

(** X11: a termination request ends the process, with the teardown done.
    Once one of the three signals has been delivered to the process
    running its loop, and provided that no signal arrives afterwards whose
    default action would terminate it, the process has called [exit] by
    the time it has executed 16 statements of the handler, whatever
    handled signals arrive in between and whenever, and whether or not the
    kernel has dropped the watch; it then exits with success with the
    watch gone, the queue closed and libnotify shut down. *)
Theorem termination_request_exits (fd wd sig : Z)
    (before schedule : list action) :
  installed sig = true ->
  Forall quiet before ->
  Forall survivable schedule ->
  (16 <= count_steps schedule)%nat ->
  exit_status (run (before ++ Deliver sig :: schedule) (active fd wd)) =
    Some EXT_SUCCESS /\
  res (run (before ++ Deliver sig :: schedule) (active fd wd)) =
    {| queue_open := false; watch_live := false; libnotify_up := false |}.
Proof.
  intros Hsig Hquiet Hall Hsteps.
  assert (Hexit : exists status,
            exit_status
              (run (before ++ Deliver sig :: schedule) (active fd wd)) =
              Some status /\
            frames (run (before ++ Deliver sig :: schedule) (active fd wd))
              <> []).
  { rewrite run_app. change (active fd wd) with (idle fd wd true []).
    rewrite (run_quiet fd wd before Hquiet true []).
    cbn [run fold_left]. rewrite (perform_first_delivery fd wd sig _ _ Hsig).
    apply (run_exits schedule Hall).
    - split; cbn [frames map signum].
      + repeat constructor. intros [].
      + repeat constructor. exact Hsig.
    - discriminate.
    - reflexivity.
    - cbn. exact Hsteps. }
  destruct Hexit as (status & Hst & Hne).
  destruct (run_exit_status _ fd wd status Hst)
    as [(-> & _ & Hres) | (_ & Hf & _)]; [|congruence].
  split; [exact Hst|exact Hres].
Qed.

Lemma termination_request_exits_witness :
  exit_status
    (run ([LoopCall (ReadQueue 3); WatchDropped; Step] ++ Deliver SIGINT ::
          [Step; Step; Deliver SIGTERM; Step; ReadFails; Step; Step;
           Deliver SIGCHLD; Deliver SIGABRT; WatchDropped] ++
          repeat Step 11) (active 3 1)) = Some EXT_SUCCESS /\
  res (run ([LoopCall (ReadQueue 3); WatchDropped; Step] ++ Deliver SIGINT ::
            [Step; Step; Deliver SIGTERM; Step; ReadFails; Step; Step;
             Deliver SIGCHLD; Deliver SIGABRT; WatchDropped] ++
            repeat Step 11) (active 3 1)) =
    {| queue_open := false; watch_live := false; libnotify_up := false |}.
Proof.
  apply (termination_request_exits 3 1 SIGINT).
  - reflexivity.
  - repeat (constructor; [exact I|]). constructor.
  - cbn [app repeat]. repeat (constructor; [cbn; tauto|]). constructor.
  - apply Nat.leb_le. reflexivity.
Defined.


